(** * Contacts MCP server (src/index.js): a shallow embedding and its properties

    The server is one JavaScript class, [ContactsServer].  Its pure helpers
    (record parsing, the search predicates, the birthday window) are embedded
    as Rocq functions over JavaScript strings; its effectful methods (script
    execution, the permission probe, the gated fetches) run in a small
    state-and-exception monad over the instance fields and the console. *)

From Stdlib Require Import List NArith ZArith Bool Lia.
From Stdlib Require String Ascii DecimalString QArith Qround.
Import ListNotations.
Import String.StringSyntax.
Delimit Scope string_scope with string.

(** ** JavaScript strings and the built-ins the server calls *)

Module JS.

(** A JavaScript string is a sequence of UTF-16 code units. *)
Definition codeunit := N.
Definition jsstring := list codeunit.

(** String literals of the source, all of them ASCII. *)
Definition lit (s : String.string) : jsstring :=
  map Ascii.N_of_ascii (String.list_ascii_of_string s).
Arguments lit s%_string.

Definition TAB : codeunit := 9%N.
Definition LF : codeunit := 10%N.
Definition CR : codeunit := 13%N.
Definition SPACE : codeunit := 32%N.
Definition QUOTE : codeunit := 39%N.
Definition SEMI : codeunit := 59%N.
Definition BACKSLASH : codeunit := 92%N.
Definition DQUOTE : codeunit := 34%N.
Definition COMMA : codeunit := 44%N.

(** Truthiness of a string: only the empty string is falsy. *)
Definition truthy (s : jsstring) : bool :=
  match s with [] => false | _ :: _ => true end.

(** [WhiteSpace] and [LineTerminator] of ECMA-262, the characters that
    [String.prototype.trim] strips. *)
Definition isWhiteSpace (c : codeunit) : bool :=
  ((9 <=? c) && (c <=? 13) || (c =? 32) || (c =? 160) || (c =? 5760)
   || (8192 <=? c) && (c <=? 8202) || (c =? 8232) || (c =? 8233)
   || (c =? 8239) || (c =? 8287) || (c =? 12288) || (c =? 65279))%N.

Definition nonWhite (c : codeunit) : bool := negb (isWhiteSpace c).

Fixpoint trimStart (s : jsstring) : jsstring :=
  match s with
  | [] => []
  | c :: r => if isWhiteSpace c then trimStart r else s
  end.

Definition trimEnd (s : jsstring) : jsstring := rev (trimStart (rev s)).

Definition trim (s : jsstring) : jsstring := trimEnd (trimStart s).

(** [s.split(sep)] for a one-character separator.  The empty string splits
    into one empty piece. *)
Fixpoint split (sep : codeunit) (s : jsstring) : list jsstring :=
  match s with
  | [] => [[]]
  | c :: r =>
      if (c =? sep)%N then [] :: split sep r
      else match split sep r with
           | [] => [[c]]
           | piece :: pieces => (c :: piece) :: pieces
           end
  end.

(** [pieces.join(sep)] for a one-character separator. *)
Fixpoint join (sep : codeunit) (pieces : list jsstring) : jsstring :=
  match pieces with
  | [] => []
  | [p] => p
  | p :: rest => p ++ sep :: join sep rest
  end.

(** [s.startsWith(t)] and [s.includes(t)]. *)
Fixpoint startsWith (s t : jsstring) : bool :=
  match t, s with
  | [], _ => true
  | _ :: _, [] => false
  | b :: t', a :: s' => (a =? b)%N && startsWith s' t'
  end.

Fixpoint includes (s t : jsstring) : bool :=
  startsWith s t ||
  match s with
  | [] => false
  | _ :: s' => includes s' t
  end.

(** [s.substring(0, n)]. *)
Definition substring0 (n : nat) (s : jsstring) : jsstring := firstn n s.

(** Values that can reach a parameter declared without a type. *)
Inductive jsval : Type :=
| JUndefined
| JNull
| JNum (z : Z)
| JStr (s : jsstring).

(** The [status] property of an error object: absent, [null] (the child
    was killed), or the exit code. *)
Inductive exitStatus : Type :=
| StatusUndefined
| StatusNull
| StatusCode (code : Z).

(** An error object, with the properties the server reads.  A missing
    [stdout] or [stderr] is the empty string: the server only tests them
    for truthiness. *)
Record error : Type := mkError {
  message : jsstring;
  status : exitStatus;
  stdout : jsstring;
  stderr : jsstring
}.

(** [new Error(message)]. *)
Definition newError (m : jsstring) : error :=
  {| message := m; status := StatusUndefined; stdout := []; stderr := [] |}.

(** The result of evaluating a call: a value, or a thrown error. *)
Inductive outcome (A : Type) : Type :=
| Returned (a : A)
| Thrown (e : error).
Arguments Returned {A} a.
Arguments Thrown {A} e.

(** [try { body } catch (e) { handler }]. *)
Definition tryCatch {A} (body : outcome A) (handler : error -> outcome A)
  : outcome A :=
  match body with
  | Returned a => Returned a
  | Thrown e => handler e
  end.

End JS.

Import JS.

(** ** The contact record and [parseContactsFromDelimitedData] *)

Record contact : Type := mkContact {
  name : jsstring;
  firstName : jsstring;
  lastName : jsstring;
  organization : jsstring;
  note : jsstring;
  birthday : jsstring;
  emails : list jsstring;
  phones : list jsstring
}.

(** [fields[i] || ''] : an index out of range reads [undefined]. *)
Definition fieldOrEmpty (fields : list jsstring) (i : nat) : jsstring :=
  match nth_error fields i with
  | Some s => if truthy s then s else []
  | None => []
  end.

(** [fields[i] ? fields[i].split(';').filter(x => x.trim()) : []]. *)
Definition fieldSplitList (fields : list jsstring) (i : nat) : list jsstring :=
  match nth_error fields i with
  | Some s =>
      if truthy s then filter (fun x => truthy (trim x)) (split SEMI s) else []
  | None => []
  end.

(** The object literal built for a line with at least eight fields. *)
Definition contactOfFields (fields : list jsstring) : contact :=
  {| name := fieldOrEmpty fields 0;
     firstName := fieldOrEmpty fields 1;
     lastName := fieldOrEmpty fields 2;
     organization := fieldOrEmpty fields 3;
     note := fieldOrEmpty fields 4;
     birthday := fieldOrEmpty fields 5;
     emails := fieldSplitList fields 6;
     phones := fieldSplitList fields 7 |}.

(** The body of the [for] loop: the guarded [push], inside its [try]; the
    [catch] only logs and goes on with the array as it is. *)
Definition parseLine (contacts : list contact) (line : jsstring)
  : list contact :=
  let attempt :=
    let fields := split TAB line in
    if 8 <=? length fields
    then Returned (contacts ++ [contactOfFields fields])
    else Returned contacts in
  match tryCatch attempt (fun _ => Returned contacts) with
  | Returned cs => cs
  | Thrown _ => contacts
  end.

(** [data.split('\n').filter(line => line.trim())]. *)
Definition linesOf (data : jsstring) : list jsstring :=
  filter (fun line => truthy (trim line)) (split LF data).

(** What one line adds to the array: the loop body run on an empty array. *)
Definition recordsOfLine (line : jsstring) : list contact := parseLine [] line.

(** Text that can be one line of the input, or one field of a line. *)
Definition lineText (s : jsstring) : Prop := ~ In LF s.
Definition fieldText (s : jsstring) : Prop := ~ In TAB s /\ ~ In LF s.
Definition itemText (s : jsstring) : Prop :=
  ~ In TAB s /\ ~ In LF s /\ ~ In SEMI s.
Definition nonBlank (s : jsstring) : Prop := truthy (trim s) = true.

(** The method on a string argument. *)
Definition parseText (data : jsstring) : list contact :=
  fold_left parseLine (linesOf data) [].

(** The method on any argument: [data.split] is a [TypeError] unless [data]
    is a string. *)
Definition parseContactsFromDelimitedData (data : jsval)
  : outcome (list contact) :=
  match data with
  | JStr s => Returned (parseText s)
  | JUndefined | JNull =>
      Thrown (newError (lit "Cannot read properties of undefined"))
  | JNum _ => Thrown (newError (lit "data.split is not a function"))
  end.

(** ** [formatContact] *)

(** The projection returned to the client; [None] is [null]. *)
Record formattedContact : Type := mkFormatted {
  fmt_name : jsstring;
  fmt_firstName : jsstring;
  fmt_lastName : jsstring;
  fmt_emails : list jsstring;
  fmt_phones : list jsstring;
  fmt_organization : option jsstring;
  fmt_notes : option jsstring;
  fmt_birthday : option jsstring
}.

Definition orNull (s : jsstring) : option jsstring :=
  if truthy s then Some s else None.

Definition formatContact (c : contact) : formattedContact :=
  {| fmt_name := if truthy (name c) then name c else lit "Unknown";
     fmt_firstName := if truthy (firstName c) then firstName c else [];
     fmt_lastName := if truthy (lastName c) then lastName c else [];
     fmt_emails := emails c;
     fmt_phones := phones c;
     fmt_organization := orNull (organization c);
     fmt_notes := orNull (note c);
     fmt_birthday := orNull (birthday c) |}.

(** ** [matchesQuery] *)

Section Query.

(** [String.prototype.toLowerCase], the Unicode case mapping of the host. *)
Variable toLowerCase : jsstring -> jsstring.

(** The array literal of [matchesQuery] before [.filter(Boolean)]. *)
Definition candidateFields (c : contact) : list jsstring :=
  [name c; firstName c; lastName c; organization c; note c]
    ++ emails c ++ phones c.

(** [query] is [None] when the argument is absent. *)
Definition matchesQuery (c : contact) (query : option jsstring) : bool :=
  match query with
  | None => true
  | Some q =>
      if negb (truthy q) then true
      else
        let searchText := toLowerCase q in
        let searchableFields := filter truthy (candidateFields c) in
        existsb (fun field => includes (toLowerCase field) searchText)
                searchableFields
  end.

End Query.

(** The search set as the specification lists it, and the substring
    relation, for stating what [matchesQuery] decides. *)
Definition searchable (c : contact) (field : jsstring) : Prop :=
  field = name c \/ field = firstName c \/ field = lastName c \/
  field = organization c \/ field = note c \/
  In field (emails c) \/ In field (phones c).

Definition isSubstring (t s : jsstring) : Prop :=
  exists before after, s = before ++ t ++ after.

(** ** [isUpcomingBirthday] *)

(** The [Date] facilities the method uses.  Time values are milliseconds
    since the epoch; [parseDate] is [new Date(text)], with [None] for an
    Invalid Date; the accessors and constructors work in local time. *)
Record clock : Type := mkClock {
  now : Z;
  parseDate : jsstring -> option Z;
  getFullYear : Z -> Z;
  getMonth : Z -> Z;
  getDate : Z -> Z;
  makeDate : Z -> Z -> Z -> Z;
  setFullYear : Z -> Z -> Z
}.

(** [Math.ceil(a / b)] for integers [a] and [b > 0].  The quotient of a time
    difference by the length of a day is either an integer or at least
    [1/86400000] away from one, far more than the rounding of a double. *)
Definition ceilDiv (a b : Z) : Z := (- ((- a) / b))%Z.

Definition msPerDay : Z := (1000 * 3600 * 24)%Z.

(** The value of [daysDiff] once the birthday has parsed to [birthDate]. *)
Definition daysDiff (k : clock) (birthDate : Z) : Z :=
  let today := now k in
  let currentYear := getFullYear k today in
  let thisYearBirthday :=
    makeDate k currentYear (getMonth k birthDate) (getDate k birthDate) in
  let thisYearBirthday :=
    if (thisYearBirthday <? today)%Z
    then setFullYear k thisYearBirthday (currentYear + 1)%Z
    else thisYearBirthday in
  let timeDiff := (thisYearBirthday - today)%Z in
  ceilDiv timeDiff msPerDay.

(** An Invalid Date makes every later value [NaN], and the two comparisons
    with [NaN] are false. *)
Definition isUpcomingBirthday (k : clock) (birthday : jsstring) (days : Z)
  : bool :=
  if negb (truthy birthday) || (days =? 0)%Z || negb (truthy birthday)
  then false
  else
    match parseDate k birthday with
    | None => false
    | Some birthDate =>
        let d := daysDiff k birthDate in
        (0 <=? d)%Z && (d <=? days)%Z
    end.

(** ** The server object and its methods *)

(** [`${n}`] for an integer. *)
Definition showNum (z : Z) : jsstring :=
  lit (DecimalString.NilZero.string_of_int (Z.to_int z)).

Definition showStatus (s : exitStatus) : jsstring :=
  match s with
  | StatusUndefined => lit "undefined"
  | StatusNull => lit "null"
  | StatusCode n => showNum n
  end.

(** [s.replace(/c/g, by)], with [by] free of [$]. *)
Definition replaceAll (c : codeunit) (by_ : jsstring) (s : jsstring)
  : jsstring :=
  flat_map (fun x => if (x =? c)%N then by_ else [x]) s.

(** [s.split(/[\r\n]+/)]: the pieces between maximal runs of CR and LF. *)
Fixpoint splitRuns (inRun : bool) (s : jsstring) : list jsstring :=
  match s with
  | [] => [[]]
  | c :: r =>
      if ((c =? CR) || (c =? LF))%N
      then if inRun then splitRuns true r else [] :: splitRuns true r
      else match splitRuns false r with
           | [] => [[c]]
           | piece :: pieces => (c :: piece) :: pieces
           end
  end.

Definition splitLines (s : jsstring) : list jsstring := splitRuns false s.

(** [names.map((name, index) => `${index + 1}. ${name}`)]. *)
Fixpoint numberFrom (index : Z) (names : list jsstring) : list jsstring :=
  match names with
  | [] => []
  | n :: rest =>
      (showNum (index + 1) ++ lit ". " ++ n) :: numberFrom (index + 1) rest
  end.

Definition numbered (names : list jsstring) : jsstring :=
  join LF (numberFrom 0 names).

(** [arr.slice(0, limit)]: a negative [limit] counts from the end. *)
Definition slice0 {A} (limit : Z) (l : list A) : list A :=
  if (limit <? 0)%Z
  then firstn (Z.to_nat (Z.max (Z.of_nat (length l) + limit) 0)) l
  else firstn (Z.to_nat limit) l.

(** [opt || d] for a numeric option. *)
Definition numOr (opt : option Z) (d : Z) : Z :=
  match opt with
  | Some n => if (n =? 0)%Z then d else n
  | None => d
  end.

(** A JSON number as the [limit] of [get_all_contacts] can be: finite,
    integer or not; here a rational. *)
Definition jsnumber : Type := QArith_base.Q.

Definition ofInteger (z : Z) : jsnumber := QArith_base.inject_Z z.

(** [ToIntegerOrInfinity]: the fraction is cut off, toward zero. *)
Definition toInteger (q : jsnumber) : Z :=
  if QArith_base.Qle_bool (ofInteger 0) q
  then Qround.Qfloor q else Qround.Qceiling q.

(** [opt || d] for a number: absent and zero are falsy. *)
Definition numberOr (opt : option jsnumber) (d : jsnumber) : jsnumber :=
  match opt with
  | Some q => if QArith_base.Qeq_bool q (ofInteger 0) then d else q
  | None => d
  end.

(** [arr.slice(0, limit)] for a number: [slice] takes its integer part. *)
Definition sliceTo {A} (limit : jsnumber) (l : list A) : list A :=
  slice0 (toInteger limit) l.

(** [n > limit] for a length [n]. *)
Definition exceeds (n : nat) (limit : jsnumber) : bool :=
  negb (QArith_base.Qle_bool (ofInteger (Z.of_nat n)) limit).

(** The script of line 220. *)
Definition checkPermissions_testScript : jsstring :=
  join LF
    [ [];
      lit "      tell application " ++ DQUOTE :: lit "System Events" ++ [DQUOTE];
      lit "        return " ++ DQUOTE :: lit "System Events accessible" ++ [DQUOTE];
      lit "      end tell";
      lit "    " ].

(** The script of line 233. *)
Definition contactsTestScript : jsstring :=
  join LF
    [ [];
      lit "      tell application " ++ DQUOTE :: lit "Contacts" ++ [DQUOTE];
      lit "        return " ++ DQUOTE :: lit "Contacts accessible" ++ [DQUOTE];
      lit "      end tell";
      lit "    " ].

(** The script of line 252. *)
Definition checkPermissionsAndReport_countScript : jsstring :=
  join LF
    [ [];
      lit "        tell application " ++ DQUOTE :: lit "Contacts" ++ [DQUOTE];
      lit "          return count of people";
      lit "        end tell";
      lit "      " ].

(** The script of line 284. *)
Definition getContactCount_countScript : jsstring :=
  join LF
    [ [];
      lit "      tell application " ++ DQUOTE :: lit "Contacts" ++ [DQUOTE];
      lit "        return count of people";
      lit "      end tell";
      lit "    " ].

(** The script of line 322. *)
Definition namesScript : jsstring :=
  join LF
    [ [];
      lit "      tell application " ++ DQUOTE :: lit "Contacts" ++ [DQUOTE];
      lit "        return (name of person 1) & return & (name of person 2) & return & (name of person 3)";
      lit "      end tell";
      lit "    " ].

(** The script of line 363. *)
Definition testContactProcessing_testScript (sampleSize : Z) : jsstring :=
  join LF
    [ [];
      lit "      tell application " ++ DQUOTE :: lit "Contacts" ++ [DQUOTE];
      lit "        set testResults to {}";
      lit "        set processedCount to 0";
      lit "        set maxSample to " ++ showNum sampleSize;
      [];
      lit "        repeat with aPerson in people";
      lit "          if processedCount >= maxSample then exit repeat";
      [];
      lit "          try";
      lit "            set startTime to current date";
      [];
      lit "            -- Test basic field access";
      lit "            set personName to " ++ DQUOTE :: [DQUOTE];
      lit "            try";
      lit "              set personName to name of aPerson";
      lit "            end try";
      [];
      lit "            -- Test email access (often problematic)";
      lit "            set emailCount to 0";
      lit "            try";
      lit "              set emailCount to count of emails of aPerson";
      lit "            end try";
      [];
      lit "            -- Test phone access";
      lit "            set phoneCount to 0";
      lit "            try";
      lit "              set phoneCount to count of phones of aPerson";
      lit "            end try";
      [];
      lit "            -- Test organization access";
      lit "            set orgName to " ++ DQUOTE :: [DQUOTE];
      lit "            try";
      lit "              set orgName to organization of aPerson";
      lit "            end try";
      [];
      lit "            set endTime to current date";
      lit "            set processingTime to endTime - startTime";
      [];
      lit "            set testResult to " ++ DQUOTE :: lit "Contact " ++ DQUOTE :: lit " & (processedCount + 1) & " ++ DQUOTE :: lit ": " ++ DQUOTE :: lit " & personName & " ++ DQUOTE :: lit " (emails:" ++ DQUOTE :: lit " & emailCount & " ++ DQUOTE :: lit ", phones:" ++ DQUOTE :: lit " & phoneCount & " ++ DQUOTE :: lit ", time:" ++ DQUOTE :: lit " & processingTime & " ++ DQUOTE :: lit "s)" ++ [DQUOTE];
      lit "            set end of testResults to testResult";
      lit "            set processedCount to processedCount + 1";
      [];
      lit "          on error errMsg";
      lit "            set errorResult to " ++ DQUOTE :: lit "Contact " ++ DQUOTE :: lit " & (processedCount + 1) & " ++ DQUOTE :: lit ": ERROR - " ++ DQUOTE :: lit " & errMsg";
      lit "            set end of testResults to errorResult";
      lit "            set processedCount to processedCount + 1";
      lit "          end try";
      lit "        end repeat";
      [];
      lit "        set AppleScript's text item delimiters to return";
      lit "        set result to testResults as text";
      lit "        set AppleScript's text item delimiters to " ++ DQUOTE :: [DQUOTE];
      lit "        return result";
      lit "      end tell";
      lit "    " ].

(** The script of line 458. *)
Definition getContactsData_script : jsstring :=
  join LF
    [ [];
      lit "      tell application " ++ DQUOTE :: lit "Contacts" ++ [DQUOTE];
      lit "        set contactList to {}";
      lit "        set contactCount to 0";
      lit "        set maxContacts to 50";
      lit "        repeat with aPerson in people";
      lit "          if contactCount >= maxContacts then exit repeat";
      lit "          try";
      lit "            -- Get basic info with safe defaults";
      lit "            set personName to " ++ DQUOTE :: [DQUOTE];
      lit "            try";
      lit "              set personName to name of aPerson";
      lit "            end try";
      [];
      lit "            set firstName to " ++ DQUOTE :: [DQUOTE];
      lit "            try";
      lit "              set firstName to first name of aPerson";
      lit "            end try";
      [];
      lit "            set lastName to " ++ DQUOTE :: [DQUOTE];
      lit "            try";
      lit "              set lastName to last name of aPerson";
      lit "            end try";
      [];
      lit "            set org to " ++ DQUOTE :: [DQUOTE];
      lit "            try";
      lit "              set org to organization of aPerson";
      lit "            end try";
      [];
      lit "            set noteText to " ++ DQUOTE :: [DQUOTE];
      lit "            try";
      lit "              set noteText to note of aPerson";
      lit "            end try";
      [];
      lit "            set birthdayText to " ++ DQUOTE :: [DQUOTE];
      lit "            try";
      lit "              set birthdayValue to birth date of aPerson";
      lit "              if birthdayValue is not missing value then";
      lit "                set birthdayText to birthdayValue as string";
      lit "              end if";
      lit "            end try";
      [];
      lit "            -- Get emails (concatenated with semicolons)";
      lit "            set emailText to " ++ DQUOTE :: [DQUOTE];
      lit "            try";
      lit "              set emailList to {}";
      lit "              repeat with anEmail in emails of aPerson";
      lit "                set end of emailList to (value of anEmail)";
      lit "              end repeat";
      lit "              set AppleScript's text item delimiters to " ++ DQUOTE :: lit ";" ++ [DQUOTE];
      lit "              set emailText to emailList as text";
      lit "              set AppleScript's text item delimiters to " ++ DQUOTE :: [DQUOTE];
      lit "            end try";
      [];
      lit "            -- Get phones (concatenated with semicolons)";
      lit "            set phoneText to " ++ DQUOTE :: [DQUOTE];
      lit "            try";
      lit "              set phoneList to {}";
      lit "              repeat with aPhone in phones of aPerson";
      lit "                set end of phoneList to (value of aPhone)";
      lit "              end repeat";
      lit "              set AppleScript's text item delimiters to " ++ DQUOTE :: lit ";" ++ [DQUOTE];
      lit "              set phoneText to phoneList as text";
      lit "              set AppleScript's text item delimiters to " ++ DQUOTE :: [DQUOTE];
      lit "            end try";
      [];
      lit "            -- Create tab-delimited record";
      lit "            set contactRecord to personName & tab & firstName & tab & lastName & tab & org & tab & noteText & tab & birthdayText & tab & emailText & tab & phoneText";
      lit "            set end of contactList to contactRecord";
      lit "            set contactCount to contactCount + 1";
      lit "          end try";
      lit "        end repeat";
      [];
      lit "        -- Return newline-delimited list";
      lit "        set AppleScript's text item delimiters to return";
      lit "        set result to contactList as text";
      lit "        set AppleScript's text item delimiters to " ++ DQUOTE :: [DQUOTE];
      lit "        return result";
      lit "      end tell";
      lit "    " ].

(** The script of line 600. *)
Definition getContactsDataUnlimited_script : jsstring :=
  join LF
    [ [];
      lit "      tell application " ++ DQUOTE :: lit "Contacts" ++ [DQUOTE];
      lit "        set contactList to {}";
      lit "        repeat with aPerson in people";
      lit "          try";
      lit "            -- Get basic info with safe defaults";
      lit "            set personName to " ++ DQUOTE :: [DQUOTE];
      lit "            try";
      lit "              set personName to name of aPerson";
      lit "            end try";
      [];
      lit "            set firstName to " ++ DQUOTE :: [DQUOTE];
      lit "            try";
      lit "              set firstName to first name of aPerson";
      lit "            end try";
      [];
      lit "            set lastName to " ++ DQUOTE :: [DQUOTE];
      lit "            try";
      lit "              set lastName to last name of aPerson";
      lit "            end try";
      [];
      lit "            set org to " ++ DQUOTE :: [DQUOTE];
      lit "            try";
      lit "              set org to organization of aPerson";
      lit "            end try";
      [];
      lit "            set noteText to " ++ DQUOTE :: [DQUOTE];
      lit "            try";
      lit "              set noteText to note of aPerson";
      lit "            end try";
      [];
      lit "            set birthdayText to " ++ DQUOTE :: [DQUOTE];
      lit "            try";
      lit "              set birthdayValue to birth date of aPerson";
      lit "              if birthdayValue is not missing value then";
      lit "                set birthdayText to birthdayValue as string";
      lit "              end if";
      lit "            end try";
      [];
      lit "            -- Get emails (concatenated with semicolons)";
      lit "            set emailText to " ++ DQUOTE :: [DQUOTE];
      lit "            try";
      lit "              set emailList to {}";
      lit "              repeat with anEmail in emails of aPerson";
      lit "                set end of emailList to (value of anEmail)";
      lit "              end repeat";
      lit "              set AppleScript's text item delimiters to " ++ DQUOTE :: lit ";" ++ [DQUOTE];
      lit "              set emailText to emailList as text";
      lit "              set AppleScript's text item delimiters to " ++ DQUOTE :: [DQUOTE];
      lit "            end try";
      [];
      lit "            -- Get phones (concatenated with semicolons)";
      lit "            set phoneText to " ++ DQUOTE :: [DQUOTE];
      lit "            try";
      lit "              set phoneList to {}";
      lit "              repeat with aPhone in phones of aPerson";
      lit "                set end of phoneList to (value of aPhone)";
      lit "              end repeat";
      lit "              set AppleScript's text item delimiters to " ++ DQUOTE :: lit ";" ++ [DQUOTE];
      lit "              set phoneText to phoneList as text";
      lit "              set AppleScript's text item delimiters to " ++ DQUOTE :: [DQUOTE];
      lit "            end try";
      [];
      lit "            -- Create tab-delimited record";
      lit "            set contactRecord to personName & tab & firstName & tab & lastName & tab & org & tab & noteText & tab & birthdayText & tab & emailText & tab & phoneText";
      lit "            set end of contactList to contactRecord";
      lit "          end try";
      lit "        end repeat";
      [];
      lit "        -- Return newline-delimited list";
      lit "        set AppleScript's text item delimiters to return";
      lit "        set result to contactList as text";
      lit "        set AppleScript's text item delimiters to " ++ DQUOTE :: [DQUOTE];
      lit "        return result";
      lit "      end tell";
      lit "    " ].

(** What the operating system reports for one spawned command. *)
Record procExit : Type := mkExit {
  exit_status : exitStatus;
  exit_stdout : jsstring;
  exit_stderr : jsstring;
  exit_message : jsstring
}.

(** [error.stdout || error.stderr || error.message] for the error that
    [execSync] throws on such a report: the raw text the console gets. *)
Definition rawDetails (r : procExit) : jsstring :=
  if truthy (exit_stdout r) then exit_stdout r
  else if truthy (exit_stderr r) then exit_stderr r
  else exit_message r.

(** The instance: the [permissionsChecked] field, the lines written with
    [console.error], and the commands handed to [execSync] with their
    timeouts, both oldest first. *)
Record server : Type := mkServer {
  permissionsChecked : bool;
  console : list jsstring;
  spawned : list (jsstring * Z)
}.

(** [new ContactsServer()]. *)
Definition constructor : server :=
  {| permissionsChecked := false; console := []; spawned := [] |}.

(** A method body: from the instance to an outcome and the instance after. *)
Definition M (A : Type) : Type := server -> outcome A * server.

Definition ret {A} (a : A) : M A := fun st => (Returned a, st).

Definition throw {A} (e : error) : M A := fun st => (Thrown e, st).

Definition bind {A B} (m : M A) (k : A -> M B) : M B :=
  fun st =>
    match m st with
    | (Returned a, st') => k a st'
    | (Thrown e, st') => (Thrown e, st')
    end.

Definition tryM {A} (body : M A) (handler : error -> M A) : M A :=
  fun st =>
    match body st with
    | (Returned a, st') => (Returned a, st')
    | (Thrown e, st') => handler e st'
    end.

(** The instance after more lines on the console, after one more command,
    and after an assignment to the field. *)
Definition withConsole (st : server) (lines : list jsstring) : server :=
  {| permissionsChecked := permissionsChecked st;
     console := console st ++ lines;
     spawned := spawned st |}.

Definition withSpawned (st : server) (command : jsstring * Z) : server :=
  {| permissionsChecked := permissionsChecked st;
     console := console st;
     spawned := spawned st ++ [command] |}.

Definition withPermissionsChecked (st : server) (b : bool) : server :=
  {| permissionsChecked := b;
     console := console st;
     spawned := spawned st |}.

Definition consoleError (line : jsstring) : M unit :=
  fun st => (Returned tt, withConsole st [line]).

Definition getPermissionsChecked : M bool :=
  fun st => (Returned (permissionsChecked st), st).

Definition setPermissionsChecked (b : bool) : M unit :=
  fun st => (Returned tt, withPermissionsChecked st b).

Definition liftOutcome {A} (o : outcome A) : M A := fun st => (o, st).

(** A method body leaves a component [f] of the instance as it found it;
    a method body never turns the [permissionsChecked] field off. *)
Definition preserves {X A} (f : server -> X) (m : M A) : Prop :=
  forall st, f (snd (m st)) = f st.

Definition neverResets {A} (m : M A) : Prop :=
  forall st,
    permissionsChecked st = true -> permissionsChecked (snd (m st)) = true.

Declare Scope server_scope.
Delimit Scope server_scope with server.
Notation "x <- m ;; k" := (bind m (fun x => k))
  (at level 61, m at next level, right associativity) : server_scope.
Notation "m ;;; k" := (bind m (fun _ => k))
  (at level 61, right associativity) : server_scope.
Open Scope server_scope.

(** The tool calls the request handler dispatches on, with the arguments the
    handlers read. *)
Inductive request : Type :=
| search_contacts (query : option jsstring)
| get_contact_by_name (name : jsstring) (exact_match : bool)
| get_all_contacts (limit : option jsnumber) (unlimited : bool)
| check_permissions
| test_contact_processing (sample_size : option Z)
| get_contact_count
| get_contact_names (limit : option Z)
| unknown_tool (name : jsstring).

Section Server.

(** The operating system: what running a command with a timeout yields,
    given the commands run before it. *)
Variable osascript : list (jsstring * Z) -> jsstring -> Z -> procExit.

(** [`${parseInt(s)}`] and [JSON.stringify(results, null, 2)]. *)
Variable showParseInt : jsstring -> jsstring.
Variable JSON_stringify : list formattedContact -> jsstring.

(** [execSync(command, { encoding: 'utf8', timeout })]: the captured
    standard output on exit status 0, otherwise an error that carries the
    status and the captured streams. *)
Definition execSync (command : jsstring) (timeout : Z) : M jsstring :=
  fun st =>
    let r := osascript (spawned st) command timeout in
    let st' := withSpawned st (command, timeout) in
    match exit_status r with
    | StatusCode 0 => (Returned (exit_stdout r), st')
    | s => (Thrown {| message := exit_message r;
                      status := s;
                      stdout := exit_stdout r;
                      stderr := exit_stderr r |}, st')
    end.

(** The shell command line built for a script. *)
Definition commandLine (script : jsstring) : jsstring :=
  lit "osascript -e '" ++ replaceAll QUOTE (lit "'\''") script
    ++ lit "' 2>/dev/null".

Definition timeoutFor (script : jsstring) : Z :=
  if includes script (lit "repeat with aPerson in people")
  then 120000%Z else 30000%Z.

Definition executeAppleScript (script : jsstring) : M jsstring :=
  tryM
    (let timeout := timeoutFor script in
     result <- execSync (commandLine script) timeout ;;
     ret (trim result))
    (fun error =>
       let errorDetails :=
         if truthy (stdout error) then stdout error
         else if truthy (stderr error) then stderr error
         else message error in
       consoleError (lit "AppleScript execution failed (exit code: "
                     ++ showStatus (status error) ++ lit "): "
                     ++ errorDetails) ;;;
       consoleError (lit "Script was: " ++ substring0 200 script
                     ++ lit "...") ;;;
       throw (newError (lit "Failed to execute AppleScript (exit code: "
                        ++ showStatus (status error) ++ lit ")"))).

Definition checkPermissions : M unit :=
  tryM (_ <- executeAppleScript checkPermissions_testScript ;; ret tt)
    (fun error =>
       consoleError (lit "System Events permission check failed: "
                     ++ message error) ;;;
       throw (newError (lit "System Events not accessible"))) ;;;
  tryM (_ <- executeAppleScript contactsTestScript ;; ret tt)
    (fun error =>
       consoleError (lit "Contacts permission check failed: "
                     ++ message error) ;;;
       throw (newError (lit "Contacts app not accessible - permission not granted"))).

Definition checkPermissionsAndReport : M jsstring :=
  tryM
    (checkPermissions ;;;
     count <- executeAppleScript checkPermissionsAndReport_countScript ;;
     ret ([9989%N] ++ lit " Permissions check passed!" ++ [LF; LF]
          ++ lit "System Events: Accessible" ++ [LF]
          ++ lit "Contacts app: Accessible" ++ [LF] ++ lit "Contact count: "
          ++ count ++ [LF; LF]
          ++ lit "The MCP server should be able to access your contacts. If you're still experiencing issues, try restarting the Claude Desktop app."))
    (fun error =>
       ret ([10060%N] ++ lit " Permissions check failed: " ++ message error
            ++ [LF; LF; 55357%N; 56615%N] ++ lit " Troubleshooting steps:"
            ++ [LF; LF] ++ lit "1. Open System Preferences/Settings "
            ++ [8594%N] ++ lit " Security & Privacy " ++ [8594%N]
            ++ lit " Privacy" ++ [LF] ++ lit "2. Look for " ++ [DQUOTE]
            ++ lit "Contacts" ++ [DQUOTE] ++ lit " in the left sidebar"
            ++ [LF]
            ++ lit "3. Make sure the Terminal app (or Claude Desktop) is listed and checked"
            ++ [LF]
            ++ lit "4. If not listed, try running the MCP server from Terminal first to trigger the permission prompt"
            ++ [LF] ++ lit "5. You may also need to grant " ++ [DQUOTE]
            ++ lit "Automation" ++ [DQUOTE] ++ lit " permissions" ++ [LF]
            ++ lit "6. Restart Claude Desktop after granting permissions"
            ++ [LF; LF]
            ++ lit "Note: On newer macOS versions, you might need to grant permissions to both the Terminal app and Claude Desktop separately.")).

Definition getContactCount : M jsstring :=
  consoleError (lit "Getting contact count...") ;;;
  tryM
    (result <- executeAppleScript getContactCount_countScript ;;
     let count := showParseInt (trim result) in
     consoleError (lit "Contact count retrieved: " ++ count) ;;;
     ret ([55357%N; 56522%N] ++ lit " Total contacts in address book: "
          ++ count ++ [LF; LF]
          ++ lit "This confirms basic Contacts app connectivity is working."))
    (fun error =>
       consoleError (lit "Contact count failed: " ++ message error) ;;;
       ret ([10060%N] ++ lit " Failed to get contact count: "
            ++ message error ++ [LF; LF]
            ++ lit "This suggests a fundamental issue with Contacts app access.")).

Definition getContactNames (args_limit : option Z) : M jsstring :=
  let limit := numOr args_limit 5 in
  consoleError (lit "Getting names of first " ++ showNum limit
                ++ lit " contacts...") ;;;
  tryM
    (result <- executeAppleScript namesScript ;;
     let names := filter (fun name => truthy (trim name))
                         (splitLines result) in
     consoleError (lit "Retrieved " ++ showNum (Z.of_nat (length names))
                   ++ lit " contact names") ;;;
     let namesList := numbered names in
     ret ([55357%N; 56541%N] ++ lit " First "
          ++ showNum (Z.of_nat (length names)) ++ lit " contact names:"
          ++ [LF; LF] ++ namesList ++ [LF; LF]
          ++ lit "This tests basic contact field access without complex data extraction."))
    (fun error =>
       consoleError (lit "Get contact names failed: " ++ message error) ;;;
       ret ([10060%N] ++ lit " Failed to get contact names: "
            ++ message error ++ [LF; LF]
            ++ lit "This suggests issues with accessing contact fields.")).

(** The method with or without its argument: [args.limit], the first
    thing it evaluates, is a [TypeError] when [args] is [undefined].
    [None] is the call without an argument, [Some limit] the call on an
    arguments object with its [limit] property. *)
Definition getContactNames_called (args : option (option Z)) : M jsstring :=
  match args with
  | None =>
      throw (newError
               (lit "Cannot read properties of undefined (reading 'limit')"))
  | Some args_limit => getContactNames args_limit
  end.

Definition testContactProcessing (args_sample_size : option Z)
  : M jsstring :=
  checkPermissions ;;;
  let sampleSize := numOr args_sample_size 5 in
  consoleError (lit "Testing contact processing with " ++ showNum sampleSize
                ++ lit " contacts...") ;;;
  tryM
    (result <-
       executeAppleScript (testContactProcessing_testScript sampleSize) ;;
     ret (lit "Contact Processing Test Results:" ++ [LF; LF] ++ result
          ++ [LF; LF]
          ++ lit "This helps identify if specific contacts are causing performance issues."))
    (fun error =>
       consoleError (lit "Contact processing test failed: " ++ message error) ;;;
       ret (lit "Contact processing test failed: " ++ message error
            ++ [LF; LF]
            ++ lit "This suggests there may be fundamental AppleScript execution issues in the Claude Desktop environment.")).

Definition getContactsData : M (list contact) :=
  checked <- getPermissionsChecked ;;
  (if negb checked
   then
     tryM
       (checkPermissions ;;;
        setPermissionsChecked true ;;;
        consoleError (lit "Initial permissions check passed"))
       (fun error =>
          consoleError (lit "Permission check failed: " ++ message error) ;;;
          throw error)
   else ret tt) ;;;
  result <- executeAppleScript getContactsData_script ;;
  if negb (truthy result)
  then consoleError (lit "No result returned from AppleScript") ;;; ret []
  else
    tryM
      (contacts <- liftOutcome (parseContactsFromDelimitedData (JStr result)) ;;
       consoleError (lit "Successfully parsed "
                     ++ showNum (Z.of_nat (length contacts))
                     ++ lit " contacts from AppleScript") ;;;
       ret contacts)
      (fun e =>
         consoleError (lit "Contact parsing failed: " ++ message e) ;;;
         consoleError (lit "Result was: " ++ substring0 500 result
                       ++ lit "...") ;;;
         ret []).

Definition getContactsDataUnlimited : M (list contact) :=
  checked <- getPermissionsChecked ;;
  (if negb checked
   then
     tryM
       (checkPermissions ;;;
        setPermissionsChecked true ;;;
        consoleError (lit "Initial permissions check passed"))
       (fun error =>
          consoleError (lit "Permission check failed: " ++ message error) ;;;
          throw error)
   else ret tt) ;;;
  result <- executeAppleScript getContactsDataUnlimited_script ;;
  if negb (truthy result)
  then consoleError (lit "No result returned from AppleScript") ;;; ret []
  else
    tryM
      (contacts <- liftOutcome (parseContactsFromDelimitedData (JStr result)) ;;
       consoleError (lit "Successfully parsed "
                     ++ showNum (Z.of_nat (length contacts))
                     ++ lit " contacts from AppleScript (unlimited)") ;;;
       ret contacts)
      (fun e =>
         consoleError (lit "Contact parsing failed: " ++ message e) ;;;
         consoleError (lit "Result was: " ++ substring0 500 result
                       ++ lit "...") ;;;
         ret []).

(** The two ways [searchContacts] cuts the interpreter's answer into
    names. *)
Definition namesOfResult (result : jsstring) : list jsstring :=
  if includes result (lit ",")
  then filter truthy (map trim (split COMMA result))
  else filter (fun name => truthy (trim name)) (splitLines result).

Definition searchContacts (args_query : option jsstring) : M jsstring :=
  checkPermissions ;;;
  let query := match args_query with Some q => q | None => [] end in
  consoleError (lit "Searching contacts with query: " ++ [DQUOTE]
                ++ (if truthy query then query else lit "all") ++ [DQUOTE]) ;;;
  if negb (truthy query)
  then
    let searchScript := lit "tell application " ++ [DQUOTE]
                        ++ lit "Contacts" ++ [DQUOTE]
                        ++ lit " to return name of people" in
    tryM
      (result <- executeAppleScript searchScript ;;
       let names := firstn 50 (namesOfResult result) in
       consoleError (lit "Found " ++ showNum (Z.of_nat (length names))
                     ++ lit " contacts") ;;;
       let namesList := numbered names in
       ret (lit "First " ++ showNum (Z.of_nat (length names))
            ++ lit " contacts:" ++ [LF; LF] ++ namesList ++ [LF; LF]
            ++ lit "(Searched entire address book using efficient AppleScript filtering)"))
      (fun error =>
         consoleError (lit "Contact search failed: " ++ message error) ;;;
         throw error)
  else
    let searchQuery := replaceAll DQUOTE [BACKSLASH; DQUOTE] query in
    let searchScript := lit "tell application " ++ [DQUOTE]
                        ++ lit "Contacts" ++ [DQUOTE]
                        ++ lit " to return name of (every person whose name contains "
                        ++ [DQUOTE] ++ searchQuery ++ [DQUOTE] ++ lit ")" in
    tryM
      (result <- executeAppleScript searchScript ;;
       let names := namesOfResult result in
       consoleError (lit "Found " ++ showNum (Z.of_nat (length names))
                     ++ lit " matching contacts") ;;;
       if (length names =? 0)%nat
       then ret (lit "No contacts found matching " ++ [DQUOTE] ++ query
                 ++ [DQUOTE] ++ lit ".")
       else
         let namesList := numbered names in
         ret (lit "Found " ++ showNum (Z.of_nat (length names))
              ++ lit " contacts matching " ++ [DQUOTE] ++ query ++ [DQUOTE]
              ++ lit ":" ++ [LF; LF] ++ namesList ++ [LF; LF]
              ++ lit "(Searched entire address book using efficient AppleScript filtering)"))
      (fun error =>
         consoleError (lit "Contact search failed: " ++ message error) ;;;
         throw error).

Definition getContactByName (args_name : jsstring) (args_exact_match : bool)
  : M jsstring :=
  checkPermissions ;;;
  consoleError (lit "Searching for contacts with name: " ++ [DQUOTE]
                ++ args_name ++ [DQUOTE]) ;;;
  let searchName := replaceAll DQUOTE [BACKSLASH; DQUOTE] args_name in
  let searchScript :=
    if args_exact_match
    then lit "tell application " ++ [DQUOTE] ++ lit "Contacts" ++ [DQUOTE]
         ++ lit " to return name of (every person whose name = " ++ [DQUOTE]
         ++ searchName ++ [DQUOTE] ++ lit ")"
    else lit "tell application " ++ [DQUOTE] ++ lit "Contacts" ++ [DQUOTE]
         ++ lit " to return name of (every person whose name contains "
         ++ [DQUOTE] ++ searchName ++ [DQUOTE] ++ lit ")" in
  tryM
    (result <- executeAppleScript searchScript ;;
     let names := filter (fun name => truthy (trim name))
                         (splitLines result) in
     consoleError (lit "Found " ++ showNum (Z.of_nat (length names))
                   ++ lit " matching contacts") ;;;
     if (length names =? 0)%nat
     then ret (lit "No contacts found with name " ++ [DQUOTE] ++ args_name
               ++ [DQUOTE] ++ lit ".")
     else
       let namesList := numbered names in
       ret (lit "Found " ++ showNum (Z.of_nat (length names))
            ++ lit " contacts with name " ++ [DQUOTE] ++ args_name
            ++ [DQUOTE] ++ lit ":" ++ [LF; LF] ++ namesList ++ [LF; LF]
            ++ lit "(Searched entire address book using efficient AppleScript filtering)"))
    (fun error =>
       consoleError (lit "Name search failed: " ++ message error) ;;;
       throw error).

(** [args.unlimited ? getContactsDataUnlimited() : getContactsData()],
    the two gated fetches, and the script each one runs. *)
Definition gatedFetch (unlimited : bool) : M (list contact) :=
  if unlimited then getContactsDataUnlimited else getContactsData.

Definition fetchScript (unlimited : bool) : jsstring :=
  if unlimited then getContactsDataUnlimited_script
  else getContactsData_script.

Definition getAllContacts (args_limit : option jsnumber)
    (args_unlimited : bool) : M jsstring :=
  contactsList <- gatedFetch args_unlimited ;;
  let limit := numberOr args_limit (ofInteger 100) in
  let limited := sliceTo limit contactsList in
  let results := map formatContact limited in
  ret (lit "Retrieved " ++ showNum (Z.of_nat (length results))
         ++ lit " contacts"
         ++ (if exceeds (length contactsList) limit
             then lit " (limited from "
                    ++ showNum (Z.of_nat (length contactsList))
                    ++ lit " total)"
             else [])
         ++ lit ":" ++ [LF; LF] ++ JSON_stringify results).

(** The [CallToolRequestSchema] handler: the text of the one content
    item of the envelope it resolves to. *)
Definition handleRequest (req : request) : M jsstring :=
  tryM
    (match req with
     | search_contacts query => searchContacts query
     | get_contact_by_name name exact_match =>
         getContactByName name exact_match
     | get_all_contacts limit unlimited => getAllContacts limit unlimited
     | check_permissions => checkPermissionsAndReport
     | test_contact_processing sample_size =>
         testContactProcessing sample_size
     | get_contact_count => getContactCount
     | get_contact_names limit => getContactNames limit
     | unknown_tool toolName => throw (newError (lit "Unknown tool: "
                                                 ++ toolName))
     end)
    (fun error =>
       ret (lit "Error accessing contacts: " ++ message error
            ++ [LF; LF; 55357%N; 56481%N]
            ++ lit " Try using the 'check_permissions' tool first to diagnose permission issues. You may need to grant Contacts and Automation permissions to Claude Desktop or Terminal in System Preferences.")).

(** The instance after serving a sequence of requests, oldest first. *)
Definition serve (reqs : list request) (st : server) : server :=
  fold_left (fun s req => snd (handleRequest req s)) reqs st.

End Server.

(** ** The shell's reading of a command line *)

Module Sh.

(** Token recognition of the POSIX shell, as far as [commandLine] needs
    it: blanks separate words; a single quote opens a run that lasts to
    the next single quote and is taken literally; outside such a run a
    backslash makes the next character literal (and removes a following
    newline); every other character stands for itself.  The shell is not
    part of the repository: this follows sections 2.2.1 to 2.2.3 and 2.3
    of the Shell Command Language.  [None]: an unterminated quote, a
    trailing backslash, or an unquoted newline, which would end the
    command. *)
Inductive quoting : Type := Unquoted | SingleQuoted.

Definition isBlank (c : codeunit) : bool := ((c =? SPACE) || (c =? TAB))%N.

Definition extend (word : option jsstring) (text : jsstring)
  : option jsstring :=
  match word with
  | Some w => Some (w ++ text)
  | None => Some text
  end.

Definition emit (word : option jsstring) (rest : list jsstring)
  : list jsstring :=
  match word with
  | Some w => w :: rest
  | None => rest
  end.

Fixpoint words (q : quoting) (word : option jsstring) (s : jsstring)
  : option (list jsstring) :=
  match s with
  | [] =>
      match q with
      | Unquoted => Some (emit word [])
      | SingleQuoted => None
      end
  | c :: r =>
      match q with
      | SingleQuoted =>
          if (c =? QUOTE)%N then words Unquoted word r
          else words SingleQuoted (extend word [c]) r
      | Unquoted =>
          if (c =? QUOTE)%N then words SingleQuoted (extend word []) r
          else if (c =? BACKSLASH)%N then
            match r with
            | [] => None
            | d :: r' =>
                if (d =? LF)%N then words Unquoted word r'
                else words Unquoted (extend word [d]) r'
            end
          else if (c =? LF)%N then None
          else if isBlank c then option_map (emit word) (words Unquoted None r)
          else words Unquoted (extend word [c]) r
      end
  end.

(** The words of a whole command line. *)
Definition wordsOf (command : jsstring) : option (list jsstring) :=
  words Unquoted None command.

End Sh.

(** ** Line splitting as the specification words it *)

(** Split on any run of carriage-return and newline characters and discard
    blank lines: what the specification asks of the record extractor, to be
    compared with [linesOf]. *)
Definition linesOf_spec (data : jsstring) : list jsstring :=
  filter (fun line => truthy (trim line)) (splitLines data).

(** ** Concrete hosts for the examples *)

Module Host.

(** Lower-casing of the ASCII letters, the restriction of [toLowerCase] to
    ASCII text. *)
Definition asciiLower (s : jsstring) : jsstring :=
  map (fun c => if ((65 <=? c) && (c <=? 90))%N then (c + 32)%N else c) s.

(** Days since the epoch of a civil date of the proleptic Gregorian
    calendar; [m] counts from 1, and a day past the end of the month runs
    into the next. *)
Definition daysFromCivil (y m d : Z) : Z :=
  (let y' := if m <=? 2 then y - 1 else y in
   let era := y' / 400 in
   let yoe := y' - era * 400 in
   let mp := if m <=? 2 then m + 9 else m - 3 in
   let doy := (153 * mp + 2) / 5 + d - 1 in
   let doe := yoe * 365 + yoe / 4 - yoe / 100 + doy in
   era * 146097 + doe - 719468)%Z.

(** The civil date (year, month from 1, day) of a day number. *)
Definition civilFromDays (z : Z) : Z * Z * Z :=
  (let z := z + 719468 in
   let era := z / 146097 in
   let doe := z - era * 146097 in
   let yoe := (doe - doe / 1460 + doe / 36524 - doe / 146096) / 365 in
   let doy := doe - (365 * yoe + yoe / 4 - yoe / 100) in
   let mp := (5 * doy + 2) / 153 in
   let d := doy - (153 * mp + 2) / 5 + 1 in
   let m := if mp <? 10 then mp + 3 else mp - 9 in
   let y := yoe + era * 400 + (if m <=? 2 then 1 else 0) in
   (y, m, d))%Z.

Definition digit (c : codeunit) : option Z :=
  if ((48 <=? c) && (c <=? 57))%N then Some (Z.of_N c - 48)%Z else None.

Fixpoint number (acc : Z) (s : jsstring) : option Z :=
  match s with
  | [] => Some acc
  | c :: r =>
      match digit c with
      | Some d => number (10 * acc + d)%Z r
      | None => None
      end
  end.

(** [new Date(text)] on the date-only form [YYYY-MM-DD], which is read as
    midnight UTC; anything else is an Invalid Date here. *)
Definition parseIsoDate (text : jsstring) : option Z :=
  match split 45%N text with
  | [y; m; d] =>
      if ((length y =? 4) && (length m =? 2) && (length d =? 2))%nat
      then
        match number 0 y, number 0 m, number 0 d with
        | Some y, Some m, Some d =>
            if ((1 <=? m) && (m <=? 12) && (1 <=? d) && (d <=? 31))%Z
            then Some (daysFromCivil y m d * msPerDay)%Z
            else None
        | _, _, _ => None
        end
      else None
  | _ => None
  end.

(** A host whose local time is UTC, at the instant [t]. *)
Definition utcClock (t : Z) : clock :=
  {| now := t;
     parseDate := parseIsoDate;
     getFullYear := fun t => fst (fst (civilFromDays (t / msPerDay)));
     getMonth := fun t => (snd (fst (civilFromDays (t / msPerDay))) - 1)%Z;
     getDate := fun t => snd (civilFromDays (t / msPerDay));
     makeDate := fun y m d => (daysFromCivil y (m + 1) d * msPerDay)%Z;
     setFullYear := fun t y =>
       (let '(_, m, d) := civilFromDays (t / msPerDay) in
        daysFromCivil y m d * msPerDay + t mod msPerDay)%Z |}.

(** Noon UTC on 15 June 2024. *)
Definition noon_2024_06_15 : Z :=
  (daysFromCivil 2024 6 15 * msPerDay + 12 * 3600 * 1000)%Z.

(** An operating system on which every command exits with [code] and
    writes [out] and [err]. *)
Definition always (code : Z) (out err : jsstring)
  : list (jsstring * Z) -> jsstring -> Z -> procExit :=
  fun _ command _ =>
    {| exit_status := StatusCode code;
       exit_stdout := out;
       exit_stderr := err;
       exit_message := lit "Command failed: " ++ command |}.

(** An interpreter over an address book holding the display [names]:
    the two probes and the names request of [getContactNames] are
    answered as AppleScript does (the names joined by carriage returns,
    an error when a person of the request does not exist); every other
    command fails. *)
Definition addressBook (names : list jsstring)
  : list (jsstring * Z) -> jsstring -> Z -> procExit :=
  fun _ command _ =>
    let ok out := {| exit_status := StatusCode 0; exit_stdout := out;
                     exit_stderr := []; exit_message := [] |} in
    let failed := {| exit_status := StatusCode 1; exit_stdout := [];
                     exit_stderr := [];
                     exit_message := lit "Command failed: " ++ command |} in
    if startsWith command (lit "osascript -e '") then
      if includes command (lit "System Events accessible")
      then ok (lit "System Events accessible" ++ [LF])
      else if includes command (lit "Contacts accessible")
      then ok (lit "Contacts accessible" ++ [LF])
      else if includes command (lit "(name of person 3)")
      then match names with
           | a :: b :: c :: _ => ok (join CR [a; b; c] ++ [LF])
           | _ => failed
           end
      else failed
    else failed.

(** Two records of the fetch script's output, and the output itself: the
    script joins the records with AppleScript's [return], a carriage
    return. *)
Definition annRecord : jsstring :=
  join TAB [lit "Ann Lee"; lit "Ann"; lit "Lee"; []; []; [];
            lit "ann@x.org"; lit "555-1"].
Definition bobRecord : jsstring :=
  join TAB [lit "Bob Ray"; lit "Bob"; lit "Ray"; []; []; [];
            lit "bob@x.org"; lit "555-2"].
Definition fetched : jsstring := join CR [annRecord; bobRecord].

Definition johnDoe : contact :=
  {| name := lit "John Doe"; firstName := lit "John"; lastName := lit "Doe";
     organization := lit "Acme Corp"; note := []; birthday := [];
     emails := [lit "John@Example.com"]; phones := [lit "555-1234"] |}.

Definition fiveNames : list jsstring :=
  [lit "Ann Lee"; lit "Bob Ray"; lit "Cy Wu"; lit "Di Oz"; lit "Ed Ng"].

Definition noParseInt (s : jsstring) : jsstring := s.
Definition noJSON (l : list formattedContact) : jsstring := [].

End Host.

(** ** [matchesField] and [matchesArrayField] *)

(** The property names of a contact record.  The two methods index the
    record with the name they are given; names that are no key of the
    record are left out of the model. *)
Inductive contactKey : Type :=
| K_name
| K_firstName
| K_lastName
| K_organization
| K_note
| K_birthday
| K_emails
| K_phones.

(** What [contact[key]] holds: a string or an array of strings. *)
Inductive property : Type :=
| PText (s : jsstring)
| PArray (items : list jsstring).

Definition getProperty (c : contact) (key : contactKey) : property :=
  match key with
  | K_name => PText (name c)
  | K_firstName => PText (firstName c)
  | K_lastName => PText (lastName c)
  | K_organization => PText (organization c)
  | K_note => PText (note c)
  | K_birthday => PText (birthday c)
  | K_emails => PArray (emails c)
  | K_phones => PArray (phones c)
  end.

(** [s === t] on strings. *)
Fixpoint strictEq (s t : jsstring) : bool :=
  match s, t with
  | [], [] => true
  | a :: s', b :: t' => (a =? b)%N && strictEq s' t'
  | _, _ => false
  end.

Section FieldMatch.

Variable toLowerCase : jsstring -> jsstring.

(** An array is truthy, also when empty, and has no [toLowerCase]. *)
Definition matchesField (c : contact) (field : contactKey)
    (value : option jsstring) (exactMatch : bool) : outcome bool :=
  match value with
  | None => Returned true
  | Some v =>
      if negb (truthy v) then Returned true
      else
        match getProperty c field with
        | PText contactValue =>
            if negb (truthy contactValue) then Returned false
            else
              let searchValue := toLowerCase v in
              let contactValueLower := toLowerCase contactValue in
              Returned (if exactMatch
                        then strictEq contactValueLower searchValue
                        else includes contactValueLower searchValue)
        | PArray _ =>
            Thrown (newError (lit "contactValue.toLowerCase is not a function"))
        end
  end.

(** A non-empty string is truthy and has no [some]; the items of the two
    arrays are strings, so [itemValue] is the item. *)
Definition matchesArrayField (c : contact) (fieldArray : contactKey)
    (value : option jsstring) (exactMatch : bool) : outcome bool :=
  match value with
  | None => Returned false
  | Some v =>
      if negb (truthy v) then Returned false
      else
        match getProperty c fieldArray with
        | PText s =>
            if negb (truthy s) then Returned false
            else
              Thrown (newError (lit "contact[fieldArray].some is not a function"))
        | PArray items =>
            let searchValue := toLowerCase v in
            Returned
              (existsb
                 (fun item =>
                    let itemValue := item in
                    if exactMatch
                    then strictEq (toLowerCase itemValue) searchValue
                    else includes (toLowerCase itemValue) searchValue)
                 items)
        end
  end.

End FieldMatch.

(** ** Vocabulary for the properties of method bodies *)

(** A method body returns on every instance. *)
Definition neverThrows {A} (m : M A) : Prop :=
  forall st, exists a st', m st = (Returned a, st').

(** A method body hands at most [n] commands to [execSync], and leaves the
    earlier ones in place. *)
Definition spawnsAtMost {A} (n : nat) (m : M A) : Prop :=
  forall st,
    exists extra,
      spawned (snd (m st)) = spawned st ++ extra /\ length extra <= n.

(** The first command a method body hands to [execSync] is [command]. *)
Definition spawnsFirst {A} (command : jsstring * Z) (m : M A) : Prop :=
  forall st,
    exists rest, spawned (snd (m st)) = spawned st ++ command :: rest.

(** Text made of white space only. *)
Definition allWhite (s : jsstring) : Prop := Forall (fun c => isWhiteSpace c = true) s.

(** Text that neither starts nor ends with white space. *)
Definition trimmed (s : jsstring) : Prop :=
  match s with
  | [] => True
  | c :: _ => isWhiteSpace c = false /\ isWhiteSpace (last s c) = false
  end.

(** The text [timeoutFor] looks for, and the adjusted birthday that
    [daysDiff] measures from now: this year's, or next year's when this
    year's lies before now. *)
Definition bulkMarker : jsstring := lit "repeat with aPerson in people".

Definition nextBirthday (k : clock) (birthDate : Z) : Z :=
  let currentYear := getFullYear k (now k) in
  let thisYearBirthday :=
    makeDate k currentYear (getMonth k birthDate) (getDate k birthDate) in
  if (thisYearBirthday <? now k)%Z
  then setFullYear k thisYearBirthday (currentYear + 1)%Z
  else thisYearBirthday.

(** Local midnight of today: [new Date(y, m, d)] on the parts of now. *)
Definition startOfToday (k : clock) : Z :=
  makeDate k (getFullYear k (now k)) (getMonth k (now k)) (getDate k (now k)).

(** The birthday falls [n] whole days after today: the date made of its
    month and day in the current year is midnight [n] days after today's,
    or that date lies before now and it is so once moved to next year. *)
Definition fallsDaysAfterToday (k : clock) (birthDate n : Z) : Prop :=
  let currentYear := getFullYear k (now k) in
  let thisYear :=
    makeDate k currentYear (getMonth k birthDate) (getDate k birthDate) in
  (thisYear = startOfToday k + n * msPerDay)%Z \/
  ((thisYear < now k)%Z /\
   (setFullYear k thisYear (currentYear + 1) =
    startOfToday k + n * msPerDay)%Z).

(** The record a row of fields stands for, as the specification words it:
    fields 0 to 5 as they are, empty when missing; fields 6 and 7 cut at
    the semicolons, blank entries dropped.  A row makes a record when it
    has at least eight fields and one of them is not blank. *)
Definition itemsOf (field : jsstring) : list jsstring :=
  filter (fun x => truthy (trim x)) (split SEMI field).

Definition recordOfRow (row : list jsstring) : contact :=
  {| name := nth 0 row [];
     firstName := nth 1 row [];
     lastName := nth 2 row [];
     organization := nth 3 row [];
     note := nth 4 row [];
     birthday := nth 5 row [];
     emails := itemsOf (nth 6 row []);
     phones := itemsOf (nth 7 row []) |}.

Definition makesRecord (row : list jsstring) : bool :=
  (8 <=? length row) && existsb (fun field => truthy (trim field)) row.

(** Text free of carriage returns and newlines. *)
Definition oneLine (s : jsstring) : Prop := ~ In CR s /\ ~ In LF s.

(** The command line and timeout of the two probes of [checkPermissions]. *)
Definition systemEventsProbe : jsstring * Z :=
  (commandLine checkPermissions_testScript, 30000%Z).
Definition contactsProbe : jsstring * Z :=
  (commandLine contactsTestScript, 30000%Z).

(** * Properties *)

(** ** Splitting, joining and trimming *)

Section StringFacts.

Variable sep : codeunit.

Lemma split_not_nil (s : jsstring) : split sep s <> [].
Proof.
  destruct s as [|c r]; simpl; [discriminate|].
  destruct (c =? sep)%N; [discriminate|].
  destruct (split sep r); discriminate.
Qed.

Lemma split_free (s : jsstring) : ~ In sep s -> split sep s = [s].
Proof.
  induction s as [|c r IH]; simpl; intros Hfree; [reflexivity|].
  destruct (N.eqb_spec c sep) as [->|_]; [tauto|].
  rewrite IH by tauto. reflexivity.
Qed.

Lemma split_app_sep (a b : jsstring) :
  ~ In sep a -> split sep (a ++ sep :: b) = a :: split sep b.
Proof.
  induction a as [|c r IH]; simpl; intros Hfree.
  - rewrite N.eqb_refl. reflexivity.
  - destruct (N.eqb_spec c sep) as [->|_]; [tauto|].
    rewrite IH by tauto. reflexivity.
Qed.

Lemma split_join (pieces : list jsstring) :
  pieces <> [] ->
  Forall (fun p => ~ In sep p) pieces ->
  split sep (join sep pieces) = pieces.
Proof.
  induction pieces as [|p rest IH]; intros Hne Hfree; [congruence|].
  inversion Hfree as [|? ? Hp Hrest]; subst.
  destruct rest as [|q rest'].
  - simpl. now apply split_free.
  - change (join sep (p :: q :: rest')) with (p ++ sep :: join sep (q :: rest')).
    rewrite split_app_sep by assumption.
    rewrite IH; [reflexivity|discriminate|assumption].
Qed.

Lemma join_free (c : codeunit) (pieces : list jsstring) :
  c <> sep ->
  Forall (fun p => ~ In c p) pieces ->
  ~ In c (join sep pieces).
Proof.
  intros Hc. induction pieces as [|p rest IH]; intros Hfree; [tauto|].
  inversion Hfree as [|? ? Hp Hrest]; subst.
  destruct rest as [|q rest']; [exact Hp|].
  change (join sep (p :: q :: rest')) with (p ++ sep :: join sep (q :: rest')).
  rewrite in_app_iff. simpl. intros [H|[H|H]]; [tauto|congruence|].
  now apply IH.
Qed.

End StringFacts.

Lemma truthy_rev (s : jsstring) : truthy (rev s) = truthy s.
Proof.
  destruct s as [|c r]; [reflexivity|]. simpl.
  destruct (rev r); reflexivity.
Qed.

Lemma truthy_trimStart (s : jsstring) :
  truthy (trimStart s) = existsb nonWhite s.
Proof.
  induction s as [|c r IH]; [reflexivity|]. simpl. unfold nonWhite at 1.
  destruct (isWhiteSpace c); [exact IH|reflexivity].
Qed.

Lemma existsb_rev_eq {A} (f : A -> bool) (l : list A) :
  existsb f (rev l) = existsb f l.
Proof.
  induction l as [|a l IH]; [reflexivity|]. simpl.
  rewrite existsb_app, IH. simpl. rewrite orb_false_r. apply orb_comm.
Qed.

Lemma existsb_trimStart (s : jsstring) :
  existsb nonWhite (trimStart s) = existsb nonWhite s.
Proof.
  induction s as [|c r IH]; [reflexivity|]. simpl.
  destruct (isWhiteSpace c) eqn:E; [|reflexivity].
  unfold nonWhite at 2. rewrite E. exact IH.
Qed.

(** [s.trim()] is truthy exactly when [s] holds a character that is not
    white space. *)
Lemma truthy_trim (s : jsstring) : truthy (trim s) = existsb nonWhite s.
Proof.
  unfold trim, trimEnd.
  now rewrite truthy_rev, truthy_trimStart, existsb_rev_eq, existsb_trimStart.
Qed.

Lemma truthy_trim_app (a b : jsstring) :
  truthy (trim (a ++ b)) = truthy (trim a) || truthy (trim b).
Proof. rewrite !truthy_trim. apply existsb_app. Qed.

Lemma truthy_trim_join (sep : codeunit) (pieces : list jsstring) :
  existsb (fun p => truthy (trim p)) pieces = true ->
  truthy (trim (join sep pieces)) = true.
Proof.
  induction pieces as [|p rest IH]; simpl; [discriminate|].
  destruct rest as [|q rest'].
  - now rewrite orb_false_r.
  - intros H. rewrite truthy_trim_app.
    change (sep :: join sep (q :: rest')) with ([sep] ++ join sep (q :: rest')).
    rewrite truthy_trim_app.
    apply orb_true_iff in H as [H|H]; [now rewrite H|].
    rewrite (IH H). now rewrite !orb_true_r.
Qed.

Lemma truthy_trim_true (s : jsstring) : truthy (trim s) = true -> truthy s = true.
Proof.
  rewrite truthy_trim. destruct s; [discriminate|reflexivity].
Qed.

(** ** [parseContactsFromDelimitedData] *)

Lemma parseLine_app (contacts : list contact) (line : jsstring) :
  parseLine contacts line = contacts ++ recordsOfLine line.
Proof.
  unfold recordsOfLine, parseLine, tryCatch.
  destruct (8 <=? length (split TAB line));
    [reflexivity|now rewrite app_nil_r].
Qed.

Lemma recordsOfLine_eq (line : jsstring) :
  recordsOfLine line =
  if 8 <=? length (split TAB line)
  then [contactOfFields (split TAB line)] else [].
Proof.
  unfold recordsOfLine, parseLine, tryCatch.
  destruct (8 <=? length (split TAB line)); reflexivity.
Qed.

Lemma fold_parseLine (lines : list jsstring) (contacts : list contact) :
  fold_left parseLine lines contacts =
  contacts ++ flat_map recordsOfLine lines.
Proof.
  revert contacts. induction lines as [|l rest IH]; intros contacts; simpl.
  - now rewrite app_nil_r.
  - rewrite IH, parseLine_app, <- app_assoc. reflexivity.
Qed.

Lemma parseText_flat_map (data : jsstring) :
  parseText data = flat_map recordsOfLine (linesOf data).
Proof. unfold parseText. now rewrite fold_parseLine. Qed.

Lemma linesOf_join (lines : list jsstring) :
  Forall lineText lines ->
  linesOf (join LF lines) = filter (fun l => truthy (trim l)) lines.
Proof.
  intros H. unfold linesOf. destruct lines as [|l rest]; [reflexivity|].
  rewrite split_join; [reflexivity|discriminate|exact H].
Qed.

Lemma flat_map_filter {A B} (p : A -> bool) (f : A -> list B) (l : list A) :
  flat_map f (filter p l) = flat_map (fun a => if p a then f a else []) l.
Proof.
  induction l as [|a l IH]; [reflexivity|]. simpl.
  destruct (p a); simpl; now rewrite IH.
Qed.

(** On input made of newline-free lines, every line contributes on its own:
    the records are the concatenation, in order, of what each non-blank
    line yields. *)
Lemma parseText_join (lines : list jsstring) :
  Forall lineText lines ->
  parseText (join LF lines) =
  flat_map (fun l => if truthy (trim l) then recordsOfLine l else []) lines.
Proof.
  intros H. now rewrite parseText_flat_map, linesOf_join, flat_map_filter.
Qed.

Lemma recordsOfLine_short (line : jsstring) :
  length (split TAB line) < 8 -> recordsOfLine line = [].
Proof.
  intros H. rewrite recordsOfLine_eq.
  destruct (Nat.leb_spec 8 (length (split TAB line))); [lia|reflexivity].
Qed.

(** C1. On every text, [parseContactsFromDelimitedData] returns an array
    and does not throw; on the empty text the array is empty; and in an
    input of newline-separated lines, a line with fewer than eight tab
    fields adds nothing and leaves the records of the lines before and
    after it as they are: the result is that of the input without the
    line, and it is the in-order concatenation of what each line yields
    by itself. *)
Theorem parse_never_throws_and_drops_short_lines :
  (forall data : jsstring,
      exists contacts,
        parseContactsFromDelimitedData (JStr data) = Returned contacts) /\
  parseContactsFromDelimitedData (JStr []) = Returned [] /\
  (forall line : jsstring,
      length (split TAB line) < 8 -> recordsOfLine line = []) /\
  (forall (before after : list jsstring) (short : jsstring),
      Forall lineText (before ++ short :: after) ->
      length (split TAB short) < 8 ->
      parseContactsFromDelimitedData
        (JStr (join LF (before ++ short :: after))) =
      parseContactsFromDelimitedData (JStr (join LF (before ++ after))) /\
      parseText (join LF (before ++ short :: after)) =
      parseText (join LF before) ++ parseText (join LF after)).
Proof.
  split; [|split; [|split]].
  - intros data. eexists. reflexivity.
  - reflexivity.
  - exact recordsOfLine_short.
  - intros before after short Hlines Hshort.
    assert (Hb : Forall lineText before)
      by (apply Forall_app in Hlines; tauto).
    assert (Ha : Forall lineText after).
    { apply Forall_app in Hlines as [_ H]. now inversion H. }
    assert (Hba : Forall lineText (before ++ after))
      by (apply Forall_app; tauto).
    assert (E : parseText (join LF (before ++ short :: after)) =
                parseText (join LF before) ++ parseText (join LF after)).
    { rewrite !parseText_join by assumption.
      rewrite flat_map_app. simpl.
      rewrite (recordsOfLine_short _ Hshort).
      now destruct (truthy (trim short)). }
    split; [|exact E].
    simpl. f_equal. rewrite E.
    rewrite !parseText_join by assumption. now rewrite flat_map_app.
Qed.

(** C1 at the end-to-end example of the specification: the second line has
    two fields, and the input parses as the first line alone does. *)
Lemma parse_never_throws_and_drops_short_lines_witness :
  parseContactsFromDelimitedData
    (JStr (join LF ([lit "John Doe" ++ TAB :: lit "John" ++ TAB :: lit "Doe"
                       ++ TAB :: lit "Acme" ++ TAB :: lit "note" ++ TAB
                       :: TAB :: lit "john@x.com" ++ TAB :: lit "555-1"]
                    ++ (lit "Bad" ++ TAB :: lit "Line") :: []))) =
  parseContactsFromDelimitedData
    (JStr (join LF ([lit "John Doe" ++ TAB :: lit "John" ++ TAB :: lit "Doe"
                       ++ TAB :: lit "Acme" ++ TAB :: lit "note" ++ TAB
                       :: TAB :: lit "john@x.com" ++ TAB :: lit "555-1"]
                    ++ []))).
Proof.
  refine (proj1 (proj2 (proj2 (proj2 parse_never_throws_and_drops_short_lines))
                   _ _ _ _ _)).
  - repeat constructor; unfold lineText; vm_compute; intuition discriminate.
  - vm_compute. lia.
Defined.

Lemma flat_map_singleton_if {A B} (p : A -> bool) (f : A -> B) (l : list A) :
  flat_map (fun a => if p a then [f a] else []) l = map f (filter p l).
Proof.
  induction l as [|a l IH]; [reflexivity|]. simpl.
  destruct (p a); simpl; now rewrite IH.
Qed.

Lemma parseText_map_filter (data : jsstring) :
  parseText data =
  map (fun line => contactOfFields (split TAB line))
      (filter (fun line => 8 <=? length (split TAB line)) (linesOf data)).
Proof.
  rewrite parseText_flat_map, <- flat_map_singleton_if.
  apply flat_map_ext. exact recordsOfLine_eq.
Qed.

Lemma join_cons (sep : codeunit) (p : jsstring) (rest : list jsstring) :
  rest <> [] -> join sep (p :: rest) = p ++ sep :: join sep rest.
Proof. destruct rest; [congruence|reflexivity]. Qed.

(** Joining the pieces of a split gives the text back. *)
Lemma join_split (sep : codeunit) (s : jsstring) :
  join sep (split sep s) = s.
Proof.
  induction s as [|c r IH]; [reflexivity|]. cbn [split].
  destruct (N.eqb_spec c sep) as [->|Hc].
  - rewrite join_cons by apply split_not_nil. now rewrite IH.
  - pose proof (split_not_nil sep r) as Hne.
    destruct (split sep r) as [|piece pieces]; [congruence|].
    destruct pieces as [|q pieces'].
    + simpl in *. now rewrite IH.
    + rewrite join_cons by discriminate.
      rewrite join_cons in IH by discriminate.
      cbn [app]. now rewrite IH.
Qed.

Lemma split_pieces_free (sep : codeunit) (s : jsstring) :
  Forall (fun p => ~ In sep p) (split sep s).
Proof.
  induction s as [|c r IH]; cbn [split].
  - repeat constructor. intros [].
  - destruct (N.eqb_spec c sep) as [->|Hc].
    + constructor; [intros []|exact IH].
    + destruct (split sep r) as [|piece pieces].
      * repeat constructor. simpl. intuition congruence.
      * inversion IH as [|? ? Hp Hps]; subst.
        constructor; [|exact Hps]. simpl. intuition congruence.
Qed.

Lemma split_pieces_sub (sep : codeunit) (s : jsstring) :
  Forall (fun p => forall x, In x p -> In x s) (split sep s).
Proof.
  induction s as [|c r IH]; cbn [split].
  - repeat constructor. intros x [].
  - assert (Hr : Forall (fun p => forall x, In x p -> In x (c :: r))
                        (split sep r))
      by (eapply Forall_impl; [|exact IH]; intros p H y Hy; right; auto).
    destruct (N.eqb_spec c sep) as [->|Hc].
    + constructor; [intros y []|exact Hr].
    + destruct (split sep r) as [|piece pieces].
      * constructor; [|constructor]. intros y [Hy|[]]. now left.
      * inversion Hr as [|? ? Hp Hps]; subst.
        constructor; [|exact Hps].
        intros y [Hy|Hy]; [now left|now apply Hp].
Qed.

(** Every text is the lines of rows of tab- and newline-free fields. *)
Lemma text_is_rows (data : jsstring) :
  Forall (Forall fieldText) (map (split TAB) (split LF data)) /\
  data = join LF (map (join TAB) (map (split TAB) (split LF data))).
Proof.
  split.
  - apply Forall_map.
    pose proof (split_pieces_free LF data) as Hfree.
    eapply Forall_impl; [|exact Hfree]. intros line Hline. cbv beta in *.
    pose proof (split_pieces_free TAB line) as Htab.
    pose proof (split_pieces_sub TAB line) as Hsub.
    apply Forall_forall. intros field Hf.
    rewrite Forall_forall in Htab, Hsub. split; [now apply Htab|].
    intros H. apply Hline. now apply (Hsub field Hf).
  - rewrite map_map.
    rewrite (map_ext _ (fun line => line) (join_split TAB)), map_id.
    symmetry. apply join_split.
Qed.

Lemma nonblank_row (row : list jsstring) :
  truthy (trim (join TAB row)) =
  existsb (fun field => truthy (trim field)) row.
Proof.
  induction row as [|f rest IH]; [reflexivity|].
  destruct rest as [|g rest'].
  - simpl. now rewrite orb_false_r.
  - rewrite join_cons by discriminate.
    change (TAB :: join TAB (g :: rest'))
      with ([TAB] ++ join TAB (g :: rest')).
    rewrite !truthy_trim_app, IH. reflexivity.
Qed.

Lemma contactOfFields_row (row : list jsstring) :
  contactOfFields row = recordOfRow row.
Proof.
  assert (Htext : forall i, fieldOrEmpty row i = nth i row []).
  { intros i. unfold fieldOrEmpty.
    destruct (nth_error row i) as [s|] eqn:E.
    - rewrite (@nth_error_nth jsstring row i s [] E). now destruct s.
    - apply nth_error_None in E.
      now rewrite (@nth_overflow jsstring row i [] E). }
  assert (Hitems : forall i, fieldSplitList row i = itemsOf (nth i row [])).
  { intros i. unfold fieldSplitList.
    destruct (nth_error row i) as [s|] eqn:E.
    - rewrite (@nth_error_nth jsstring row i s [] E). now destruct s.
    - apply nth_error_None in E.
      now rewrite (@nth_overflow jsstring row i [] E). }
  unfold contactOfFields, recordOfRow. now rewrite !Htext, !Hitems.
Qed.

(** What one row of fields adds to the result. *)
Lemma records_of_row (row : list jsstring) :
  Forall fieldText row ->
  (if truthy (trim (join TAB row)) then recordsOfLine (join TAB row) else []) =
  (if makesRecord row then [recordOfRow row] else []).
Proof.
  intros Hrow. unfold makesRecord. rewrite nonblank_row.
  destruct row as [|f rest]; [reflexivity|].
  rewrite recordsOfLine_eq, split_join;
    [|discriminate
     |eapply Forall_impl; [|exact Hrow]; unfold fieldText; tauto].
  rewrite contactOfFields_row.
  destruct (8 <=? length (f :: rest)),
    (existsb (fun field => truthy (trim field)) (f :: rest)); reflexivity.
Qed.

Lemma records_of_rows (rows : list (list jsstring)) :
  Forall (Forall fieldText) rows ->
  flat_map (fun l => if truthy (trim l) then recordsOfLine l else [])
           (map (join TAB) rows) =
  map recordOfRow (filter makesRecord rows).
Proof.
  induction rows as [|row rows IH]; intros Hrows; [reflexivity|].
  inversion Hrows as [|? ? Hrow Hrest]; subst.
  cbn [map flat_map filter]. rewrite (records_of_row row Hrow), (IH Hrest).
  now destruct (makesRecord row).
Qed.

(** C10. The records come in source order.  Every input text is the
    lines, joined by newlines, of rows of fields joined by tabs; and for
    every such input and every position [k], the [k]-th record returned is
    the record of the [k]-th row, counting in input order the rows that
    have at least eight fields and are not blank (and there is a [k]-th
    record exactly when there is such a row): rows that are dropped never
    reorder the others. *)
Theorem parse_preserves_source_order :
  (forall data : jsstring,
      exists rows,
        Forall (Forall fieldText) rows /\
        data = join LF (map (join TAB) rows)) /\
  (forall (rows : list (list jsstring)) (k : nat),
      Forall (Forall fieldText) rows ->
      exists contacts,
        parseContactsFromDelimitedData
          (JStr (join LF (map (join TAB) rows))) = Returned contacts /\
        nth_error contacts k =
        option_map recordOfRow (nth_error (filter makesRecord rows) k)).
Proof.
  split.
  - intros data. eexists. apply text_is_rows.
  - intros rows k Hrows. eexists. split; [reflexivity|].
    assert (Hlines : Forall lineText (map (join TAB) rows)).
    { apply Forall_map. eapply Forall_impl; [|exact Hrows].
      intros row Hrow. apply join_free; [discriminate|].
      eapply Forall_impl; [|exact Hrow]. unfold fieldText. tauto. }
    rewrite parseText_join by exact Hlines.
    rewrite records_of_rows by exact Hrows. apply nth_error_map.
Qed.

(** C10 on three rows, the second of two fields: the record at position 1
    is that of the third row. *)
Lemma parse_preserves_source_order_witness :
  exists contacts,
    parseContactsFromDelimitedData
      (JStr (join LF
               (map (join TAB)
                  [[lit "Ann Lee"; lit "Ann"; lit "Lee"; []; []; [];
                    lit "ann@x.org"; lit "555-1"];
                   [lit "Bad"; lit "Line"];
                   [lit "Bob Ray"; lit "Bob"; lit "Ray"; []; []; [];
                    lit "bob@x.org"; lit "555-2"]]))) = Returned contacts /\
    nth_error contacts 1 =
    Some {| name := lit "Bob Ray"; firstName := lit "Bob";
            lastName := lit "Ray"; organization := []; note := [];
            birthday := []; emails := [lit "bob@x.org"];
            phones := [lit "555-2"] |}.
Proof.
  apply (proj2 parse_preserves_source_order
           [[lit "Ann Lee"; lit "Ann"; lit "Lee"; []; []; [];
             lit "ann@x.org"; lit "555-1"];
            [lit "Bad"; lit "Line"];
            [lit "Bob Ray"; lit "Bob"; lit "Ray"; []; []; [];
             lit "bob@x.org"; lit "555-2"]] 1).
  repeat constructor; vm_compute; intuition discriminate.
Defined.

Lemma or_empty_id (s : jsstring) : (if truthy s then s else []) = s.
Proof. now destruct s. Qed.

(** One non-blank line of eight tab-free fields parses to one record that
    carries the first six fields as they are. *)
Lemma parseText_single_line (n f l o nt bd em ph : jsstring) :
  Forall fieldText [n; f; l; o; nt; bd; em; ph] ->
  nonBlank (join TAB [n; f; l; o; nt; bd; em; ph]) ->
  parseText (join TAB [n; f; l; o; nt; bd; em; ph]) =
  [ {| name := n; firstName := f; lastName := l; organization := o;
       note := nt; birthday := bd;
       emails := if truthy em
                 then filter (fun x => truthy (trim x)) (split SEMI em)
                 else [];
       phones := if truthy ph
                 then filter (fun x => truthy (trim x)) (split SEMI ph)
                 else [] |} ].
Proof.
  intros Hfields Hline.
  set (fields := [n; f; l; o; nt; bd; em; ph]) in *.
  assert (Htab : Forall (fun p => ~ In TAB p) fields)
    by (eapply Forall_impl; [|exact Hfields]; unfold fieldText; tauto).
  assert (Hlf : Forall (fun p => ~ In LF p) fields)
    by (eapply Forall_impl; [|exact Hfields]; unfold fieldText; tauto).
  assert (Hfree : ~ In LF (join TAB fields))
    by (apply join_free; [discriminate|exact Hlf]).
  rewrite parseText_flat_map. unfold linesOf.
  rewrite split_free by exact Hfree. cbn [filter].
  unfold nonBlank in Hline. rewrite Hline. cbn [flat_map].
  rewrite app_nil_r, recordsOfLine_eq.
  rewrite split_join; [|subst fields; discriminate|exact Htab].
  subst fields. cbn [length Nat.leb].
  unfold contactOfFields, fieldOrEmpty, fieldSplitList. cbn [nth_error].
  now rewrite !or_empty_id.
Qed.

Lemma nonBlank_truthy (s : jsstring) : nonBlank s -> truthy s = true.
Proof. apply truthy_trim_true. Qed.

(** C2. Eight fields joined by tabs parse back to the record they came
    from: with [e1;e2] as the email field and [p1] as the phone field the
    one record returned has the six text fields as given, [emails = [e1, e2]]
    and [phones = [p1]]; and whatever else a non-blank line of eight fields
    holds, an empty email field gives the record an empty [emails] and an
    empty phone field an empty [phones]. *)
Theorem parse_round_trip :
  (forall n f l o nt bd e1 e2 p1 : jsstring,
      Forall itemText [n; f; l; o; nt; bd; e1; e2; p1] ->
      nonBlank e1 -> nonBlank e2 -> nonBlank p1 ->
      parseContactsFromDelimitedData
        (JStr (join TAB [n; f; l; o; nt; bd; e1 ++ SEMI :: e2; p1])) =
      Returned
        [ {| name := n; firstName := f; lastName := l; organization := o;
             note := nt; birthday := bd;
             emails := [e1; e2]; phones := [p1] |} ]) /\
  (forall n f l o nt bd em ph : jsstring,
      Forall fieldText [n; f; l; o; nt; bd; em; ph] ->
      nonBlank (join TAB [n; f; l; o; nt; bd; em; ph]) ->
      exists c,
        parseContactsFromDelimitedData
          (JStr (join TAB [n; f; l; o; nt; bd; em; ph])) = Returned [c] /\
        name c = n /\ firstName c = f /\ lastName c = l /\
        organization c = o /\ note c = nt /\ birthday c = bd /\
        (em = [] -> emails c = []) /\
        (ph = [] -> phones c = [])).
Proof.
  split.
  - intros n f l o nt bd e1 e2 p1 Hitems He1 He2 Hp1.
    repeat match goal with
           | H : Forall _ (_ :: _) |- _ =>
               let Hx := fresh "Hx" in
               inversion H as [|? ? Hx ?]; subst; clear H;
               destruct Hx as (? & ? & ?)
           end.
    unfold parseContactsFromDelimitedData.
    rewrite parseText_single_line.
    + assert (Hem : truthy (e1 ++ SEMI :: e2) = true) by now destruct e1.
      rewrite Hem, (nonBlank_truthy _ Hp1).
      rewrite split_app_sep by assumption.
      rewrite !split_free by assumption.
      simpl filter. unfold nonBlank in *. now rewrite He1, He2, Hp1.
    + repeat constructor; try assumption;
        rewrite in_app_iff; simpl; intros [?|[?|?]];
        try tauto; discriminate.
    + apply truthy_trim_join. simpl. unfold nonBlank in Hp1.
      rewrite Hp1. now rewrite !orb_true_r.
  - intros n f l o nt bd em ph Hfields Hline.
    eexists. unfold parseContactsFromDelimitedData.
    rewrite parseText_single_line by assumption.
    split; [reflexivity|]. simpl.
    repeat split; try reflexivity; intros ->; reflexivity.
Qed.

(** C2 on the first record of the test suite's mock data, and on a record
    with neither an email nor a phone. *)
Lemma parse_round_trip_witness :
  parseContactsFromDelimitedData
    (JStr (join TAB [lit "John Doe"; lit "John"; lit "Doe"; lit "Acme Corp";
                     lit "Test note"; lit "Monday, January 1, 2000";
                     lit "john@example.com" ++ SEMI :: lit "john.doe@work.com";
                     lit "555-1234"])) =
  Returned
    [ {| name := lit "John Doe"; firstName := lit "John";
         lastName := lit "Doe"; organization := lit "Acme Corp";
         note := lit "Test note"; birthday := lit "Monday, January 1, 2000";
         emails := [lit "john@example.com"; lit "john.doe@work.com"];
         phones := [lit "555-1234"] |} ] /\
  exists c,
    parseContactsFromDelimitedData
      (JStr (join TAB [lit "Bob Wilson"; lit "Bob"; lit "Wilson";
                       lit "Tech Inc"; []; []; []; []])) = Returned [c] /\
    name c = lit "Bob Wilson" /\ firstName c = lit "Bob" /\
    lastName c = lit "Wilson" /\ organization c = lit "Tech Inc" /\
    note c = [] /\ birthday c = [] /\
    (([] : jsstring) = [] -> emails c = []) /\
    (([] : jsstring) = [] -> phones c = []).
Proof.
  split.
  - apply (proj1 parse_round_trip);
      [ repeat constructor; vm_compute; intuition discriminate
      | reflexivity | reflexivity | reflexivity ].
  - apply (proj2 parse_round_trip);
      [ repeat constructor; vm_compute; intuition discriminate
      | reflexivity ].
Defined.

(** C3. The method splits on the newline character alone.  On the output of
    the fetch script for two contacts, whose records a carriage return
    separates, it sees one line and builds one record, the second contact
    ending up inside the first one's phone; splitting on runs of carriage
    returns and newlines, as the specification asks and as
    [getContactNames] does with its own result, gives the two records. *)
Theorem parse_keeps_carriage_return_separated_records_together :
  linesOf Host.fetched = [Host.fetched] /\
  linesOf_spec Host.fetched = [Host.annRecord; Host.bobRecord] /\
  parseContactsFromDelimitedData (JStr Host.fetched) =
  Returned
    [ {| name := lit "Ann Lee"; firstName := lit "Ann"; lastName := lit "Lee";
         organization := []; note := []; birthday := [];
         emails := [lit "ann@x.org"];
         phones := [lit "555-1" ++ CR :: lit "Bob Ray"] |} ].
Proof. repeat split; vm_compute; reflexivity. Qed.

(** ** [matchesQuery] *)

Lemma startsWith_spec (s t : jsstring) :
  startsWith s t = true <-> exists after, s = t ++ after.
Proof.
  revert s. induction t as [|b t IH]; intros s; simpl.
  - split; [intros _; now exists s|intros _; now destruct s].
  - destruct s as [|a s]; simpl.
    + split; [discriminate|intros [after H]; discriminate].
    + rewrite andb_true_iff, N.eqb_eq, IH. split.
      * intros [-> [after ->]]. now exists after.
      * intros [after H]. injection H as -> ->. split; [reflexivity|].
        now exists after.
Qed.

Lemma includes_spec (s t : jsstring) :
  includes s t = true <-> isSubstring t s.
Proof.
  unfold isSubstring. induction s as [|a s IH].
  - cbn [includes]. rewrite orb_false_r, startsWith_spec. split.
    + intros [after H]. now exists [], after.
    + intros [before [after H]].
      destruct before; [now exists after|discriminate].
  - cbn [includes]. rewrite orb_true_iff, startsWith_spec, IH. split.
    + intros [[after H]|[before [after H]]].
      * now exists [], after.
      * exists (a :: before), after. simpl. now rewrite H.
    + intros [before [after H]]. destruct before as [|b before].
      * left. now exists after.
      * right. injection H as _ H. now exists before, after.
Qed.

Lemma candidateFields_searchable (c : contact) (field : jsstring) :
  In field (candidateFields c) <-> searchable c field.
Proof.
  unfold candidateFields, searchable. rewrite !in_app_iff. simpl.
  intuition auto.
Qed.

Lemma truthy_nonempty (s : jsstring) : truthy s = true <-> s <> [].
Proof. destruct s; simpl; split; congruence. Qed.

(** C4. [matchesQuery] answers true when the query is absent or empty;
    for any other query it answers true exactly when the lower-cased query
    is a substring of the lower-cased text of some non-empty field among
    name, firstName, lastName, organization, note, the emails and the
    phones. *)
Theorem matchesQuery_decides_substring_search
    (toLowerCase : jsstring -> jsstring) (c : contact) :
  matchesQuery toLowerCase c None = true /\
  matchesQuery toLowerCase c (Some []) = true /\
  forall q : jsstring,
    q <> [] ->
    (matchesQuery toLowerCase c (Some q) = true <->
     exists field,
       searchable c field /\ field <> [] /\
       isSubstring (toLowerCase q) (toLowerCase field)).
Proof.
  split; [reflexivity|split; [reflexivity|]].
  intros q Hq. unfold matchesQuery.
  apply truthy_nonempty in Hq. rewrite Hq. cbn [negb].
  rewrite existsb_exists. split.
  - intros [field [Hin Hinc]]. apply filter_In in Hin as [Hin Hne].
    exists field. rewrite <- candidateFields_searchable, <- truthy_nonempty.
    now rewrite <- includes_spec.
  - intros [field [Hs [Hne Hsub]]]. exists field. rewrite filter_In.
    rewrite candidateFields_searchable, truthy_nonempty, includes_spec.
    tauto.
Qed.

(** C4 with ASCII lower-casing: the query [EXAMPLE] is found in the email
    [John@Example.com]. *)
Lemma matchesQuery_decides_substring_search_witness :
  matchesQuery Host.asciiLower Host.johnDoe (Some (lit "EXAMPLE")) = true.
Proof.
  apply (proj2 (proj2 (matchesQuery_decides_substring_search
                         Host.asciiLower Host.johnDoe))
           (lit "EXAMPLE")); [discriminate|].
  exists (lit "John@Example.com"). split; [|split].
  - unfold searchable. do 5 right. left. simpl. now left.
  - discriminate.
  - exists (lit "john@"), (lit ".com"). reflexivity.
Defined.

(** ** [isUpcomingBirthday] *)

Lemma isUpcomingBirthday_true_iff
    (k : clock) (birthdayText : jsstring) (windowDays : Z) :
  isUpcomingBirthday k birthdayText windowDays = true <->
  birthdayText <> [] /\ windowDays <> 0%Z /\
  exists birthDate,
    parseDate k birthdayText = Some birthDate /\
    (0 <= daysDiff k birthDate <= windowDays)%Z.
Proof.
  unfold isUpcomingBirthday.
  destruct birthdayText as [|c r]; cbn [truthy negb orb].
  - split; [discriminate|intros [H _]; congruence].
  - rewrite orb_false_r. destruct (Z.eqb_spec windowDays 0) as [->|Hw].
    + split; [discriminate|intros (_ & H & _); congruence].
    + destruct (parseDate k (c :: r)) as [birthDate|].
      * rewrite andb_true_iff, !Z.leb_le. split.
        -- intros H. repeat split; try congruence. now exists birthDate.
        -- intros (_ & _ & d & Hd & H). injection Hd as <-. exact H.
      * split; [discriminate|intros (_ & _ & d & Hd & _); discriminate].
Qed.


Lemma ceilDiv_above (a b n : Z) :
  (0 < b)%Z -> (n * b < a)%Z -> (n < ceilDiv a b)%Z.
Proof.
  intros Hb Ha. unfold ceilDiv.
  pose proof (Z.div_mod (- a) b ltac:(lia)) as Hdm.
  pose proof (Z.mod_pos_bound (- a) b Hb) as Hmod.
  nia.
Qed.

(** A birthday that falls more than the window of whole days after today
    is measured, rounded up, beyond the window. *)
Lemma daysDiff_after_window (k : clock) (birthDate windowDays : Z) :
  (startOfToday k <= now k < startOfToday k + msPerDay)%Z ->
  (0 <= windowDays)%Z ->
  fallsDaysAfterToday k birthDate (windowDays + 1) ->
  (windowDays < daysDiff k birthDate)%Z.
Proof.
  intros Hnow Hw Hfalls. unfold daysDiff. cbv zeta.
  apply ceilDiv_above; [reflexivity|].
  unfold fallsDaysAfterToday in Hfalls. cbv zeta in Hfalls.
  unfold msPerDay in *.
  destruct Hfalls as [Hthis|[Hpast Hnext]].
  - rewrite Hthis.
    destruct (Z.ltb_spec (startOfToday k + (windowDays + 1) * (1000 * 3600 * 24))
                (now k)); lia.
  - destruct (Z.ltb_spec
                (makeDate k (getFullYear k (now k)) (getMonth k birthDate)
                   (getDate k birthDate)) (now k)); [|lia].
    rewrite Hnext. lia.
Qed.



(** ** [executeAppleScript] *)

Section Running.

Variable osascript : list (jsstring * Z) -> jsstring -> Z -> procExit.

(** The method, in one step: what it returns or throws and what it leaves
    on the instance, from what the operating system reports. *)
Lemma executeAppleScript_run (script : jsstring) (st : server) :
  let command := (commandLine script, timeoutFor script) in
  let r := osascript (spawned st) (fst command) (snd command) in
  executeAppleScript osascript script st =
  match exit_status r with
  | StatusCode 0%Z => (Returned (trim (exit_stdout r)), withSpawned st command)
  | s =>
      (Thrown (newError (lit "Failed to execute AppleScript (exit code: "
                         ++ showStatus s ++ lit ")")),
       withConsole (withSpawned st command)
         [lit "AppleScript execution failed (exit code: "
            ++ showStatus s ++ lit "): " ++ rawDetails r;
          lit "Script was: " ++ substring0 200 script ++ lit "..."])
  end.
Proof.
  cbv zeta. cbn [fst snd].
  unfold executeAppleScript, tryM, bind, execSync, rawDetails.
  destruct (exit_status _) as [| |[| |]] eqn:E; cbn [status stdout stderr message];
    unfold consoleError, throw, ret, withConsole; cbn;
    rewrite <- ?app_assoc; reflexivity.
Qed.

End Running.

(** The shell reads the escaped payload, up to the closing quote, as the
    payload itself. *)
Lemma words_quoted_payload (script word rest : jsstring) :
  Sh.words Sh.SingleQuoted (Some word)
    (replaceAll QUOTE (lit "'\''") script ++ QUOTE :: rest) =
  Sh.words Sh.Unquoted (Some (word ++ script)) rest.
Proof.
  revert word. induction script as [|c script IH]; intros word.
  - cbn. now rewrite app_nil_r.
  - cbn [replaceAll flat_map]. fold (replaceAll QUOTE (lit "'\''") script).
    destruct (N.eqb_spec c QUOTE) as [->|Hc].
    + change (lit "'\''") with [QUOTE; BACKSLASH; QUOTE; QUOTE].
      cbn -[replaceAll]. rewrite IH, app_nil_r, <- app_assoc. reflexivity.
    + cbn [app Sh.words]. apply N.eqb_neq in Hc. rewrite Hc.
      cbn [Sh.extend]. rewrite IH, <- app_assoc. reflexivity.
Qed.

(** C6. The command handed to the shell is [osascript -e '] followed by
    the payload with each single quote replaced by the four characters
    quote, backslash, quote, quote, followed by [' 2>/dev/null]; it is the
    one command [executeAppleScript] spawns; and for every payload the
    shell reads it as the words [osascript], [-e], the payload unchanged,
    and the redirection, so a single quote in the payload reaches the
    interpreter as itself and never ends the quoting. *)
Theorem executeAppleScript_quotes_payload
    (osascript : list (jsstring * Z) -> jsstring -> Z -> procExit)
    (script : jsstring) (st : server) :
  commandLine script =
    lit "osascript -e '"
      ++ flat_map (fun c => if (c =? QUOTE)%N
                            then [QUOTE; BACKSLASH; QUOTE; QUOTE] else [c])
                  script
      ++ lit "' 2>/dev/null" /\
  spawned (snd (executeAppleScript osascript script st)) =
    spawned st ++ [(commandLine script, timeoutFor script)] /\
  Sh.wordsOf (commandLine script) =
    Some [lit "osascript"; lit "-e"; script; lit "2>/dev/null"].
Proof.
  split; [reflexivity|split].
  - pose proof (executeAppleScript_run osascript script st) as H.
    cbv zeta in H. rewrite H.
    destruct (exit_status _) as [| |[| |]]; reflexivity.
  - unfold Sh.wordsOf, commandLine.
    change (lit "' 2>/dev/null") with (QUOTE :: lit " 2>/dev/null").
    set (tail := replaceAll _ _ _ ++ _).
    cbn -[tail]. subst tail.
    rewrite words_quoted_payload. reflexivity.
Qed.

(** C7. When the process exits with a status other than 0,
    [executeAppleScript] throws a plain error whose message is the fixed
    text around the decimal exit code, whatever the process wrote; what it
    wrote (the captured output, else the diagnostics, else the error
    message) goes to the console with the first 200 characters of the
    script, and the instance is otherwise as it was but for the spawned
    command. *)
Theorem executeAppleScript_failure_carries_exit_code_only
    (osascript : list (jsstring * Z) -> jsstring -> Z -> procExit)
    (script : jsstring) (st : server) (code : Z) :
  let r := osascript (spawned st) (commandLine script) (timeoutFor script) in
  exit_status r = StatusCode code ->
  code <> 0%Z ->
  exists st',
    executeAppleScript osascript script st =
      (Thrown {| message := lit "Failed to execute AppleScript (exit code: "
                              ++ showNum code ++ lit ")";
                 status := StatusUndefined; stdout := []; stderr := [] |},
       st') /\
    console st' =
      console st
        ++ [lit "AppleScript execution failed (exit code: "
              ++ showNum code ++ lit "): " ++ rawDetails r;
            lit "Script was: " ++ substring0 200 script ++ lit "..."] /\
    permissionsChecked st' = permissionsChecked st /\
    spawned st' = spawned st ++ [(commandLine script, timeoutFor script)].
Proof.
  intros r Hstatus Hcode.
  pose proof (executeAppleScript_run osascript script st) as H.
  cbv zeta in H. cbn [fst snd] in H. fold r in H. rewrite Hstatus in H.
  eexists. split.
  - rewrite H. destruct code; [congruence| |]; reflexivity.
  - repeat split.
Qed.

(** C7 on a process that exits with status 1 after writing to both of its
    streams. *)
Lemma executeAppleScript_failure_carries_exit_code_only_witness :
  exists st',
    executeAppleScript (Host.always 1 (lit "partial output") (lit "syntax error"))
      (lit "invalid applescript syntax here") constructor =
      (Thrown (newError (lit "Failed to execute AppleScript (exit code: 1)")),
       st') /\
    console st' =
      [lit "AppleScript execution failed (exit code: 1): partial output";
       lit "Script was: invalid applescript syntax here..."] /\
    permissionsChecked st' = false /\
    spawned st' =
      [(lit "osascript -e 'invalid applescript syntax here' 2>/dev/null",
        30000%Z)].
Proof.
  apply (executeAppleScript_failure_carries_exit_code_only
           (Host.always 1 (lit "partial output") (lit "syntax error"))
           (lit "invalid applescript syntax here") constructor 1%Z).
  - reflexivity.
  - lia.
Defined.

(** ** Running method bodies *)

Section Bodies.

Context {A B : Type}.

Lemma bind_returned (m : M A) (k : A -> M B) st a st' :
  m st = (Returned a, st') -> bind m k st = k a st'.
Proof. unfold bind. now intros ->. Qed.

Lemma bind_thrown (m : M A) (k : A -> M B) st e st' :
  m st = (Thrown e, st') -> bind m k st = (Thrown e, st').
Proof. unfold bind. now intros ->. Qed.

Lemma tryM_returned (body : M A) (handler : error -> M A) st a st' :
  body st = (Returned a, st') -> tryM body handler st = (Returned a, st').
Proof. unfold tryM. now intros ->. Qed.

Lemma tryM_thrown (body : M A) (handler : error -> M A) st e st' :
  body st = (Thrown e, st') -> tryM body handler st = handler e st'.
Proof. unfold tryM. now intros ->. Qed.

End Bodies.

Section Preservation.

Context {X : Type} (f : server -> X).

Lemma preserves_ret {A} (a : A) : preserves f (ret a).
Proof. intros st. reflexivity. Qed.

Lemma preserves_throw {A} (e : error) : preserves f (@throw A e).
Proof. intros st. reflexivity. Qed.

Lemma preserves_liftOutcome {A} (o : outcome A) :
  preserves f (liftOutcome o).
Proof. intros st. reflexivity. Qed.

Lemma preserves_getPermissionsChecked : preserves f getPermissionsChecked.
Proof. intros st. reflexivity. Qed.

Lemma preserves_bind {A B} (m : M A) (k : A -> M B) :
  preserves f m -> (forall a, preserves f (k a)) -> preserves f (bind m k).
Proof.
  intros Hm Hk st. unfold bind. specialize (Hm st).
  destruct (m st) as [[a|e] st']; cbn [snd] in *; [|exact Hm].
  now rewrite Hk.
Qed.

Lemma preserves_tryM {A} (body : M A) (handler : error -> M A) :
  preserves f body -> (forall e, preserves f (handler e)) ->
  preserves f (tryM body handler).
Proof.
  intros Hb Hh st. unfold tryM. specialize (Hb st).
  destruct (body st) as [[a|e] st']; cbn [snd] in *; [exact Hb|].
  now rewrite Hh.
Qed.

End Preservation.

Lemma consoleError_keeps_flag (line : jsstring) :
  preserves permissionsChecked (consoleError line).
Proof. intros st. reflexivity. Qed.

Lemma consoleError_keeps_spawned (line : jsstring) :
  preserves spawned (consoleError line).
Proof. intros st. reflexivity. Qed.

Lemma setPermissionsChecked_keeps_spawned (b : bool) :
  preserves spawned (setPermissionsChecked b).
Proof. intros st. reflexivity. Qed.

Create HintDb flag.
Create HintDb spawn.

#[local] Hint Resolve preserves_ret preserves_throw preserves_liftOutcome
  preserves_getPermissionsChecked consoleError_keeps_flag : flag.
#[local] Hint Resolve preserves_ret preserves_throw preserves_liftOutcome
  preserves_getPermissionsChecked consoleError_keeps_spawned
  setPermissionsChecked_keeps_spawned : spawn.

(** Take a method body apart along its binds, handlers and branches. *)
Ltac body_step :=
  match goal with
  | |- preserves _ (bind _ _) => apply preserves_bind; [|intros ?]
  | |- preserves _ (tryM _ _) => apply preserves_tryM; [|intros ?]
  | |- preserves _ (if ?b then _ else _) => destruct b
  | |- preserves _ (match ?x with _ => _ end) => destruct x
  | |- preserves _ (let _ := _ in _) => cbv zeta
  end.

Ltac keeps_flag := repeat body_step; auto with flag.
Ltac keeps_spawned := repeat body_step; auto with spawn.

Section ServerFacts.

Variable osascript : list (jsstring * Z) -> jsstring -> Z -> procExit.
Variable showParseInt : jsstring -> jsstring.
Variable JSON_stringify : list formattedContact -> jsstring.

Lemma executeAppleScript_keeps_flag (script : jsstring) :
  preserves permissionsChecked (executeAppleScript osascript script).
Proof.
  intros st. pose proof (executeAppleScript_run osascript script st) as H.
  cbv zeta in H. rewrite H.
  destruct (exit_status _) as [| |[| |]]; reflexivity.
Qed.

Lemma executeAppleScript_spawns (script : jsstring) (st : server) :
  spawned (snd (executeAppleScript osascript script st)) =
  spawned st ++ [(commandLine script, timeoutFor script)].
Proof.
  pose proof (executeAppleScript_run osascript script st) as H.
  cbv zeta in H. rewrite H.
  destruct (exit_status _) as [| |[| |]]; reflexivity.
Qed.

Hint Resolve executeAppleScript_keeps_flag : flag.
Hint Resolve consoleError_keeps_spawned : spawn.

Lemma checkPermissions_keeps_flag :
  preserves permissionsChecked (checkPermissions osascript).
Proof. unfold checkPermissions. keeps_flag. Qed.

Hint Resolve checkPermissions_keeps_flag : flag.

Lemma checkPermissionsAndReport_keeps_flag :
  preserves permissionsChecked (checkPermissionsAndReport osascript).
Proof. unfold checkPermissionsAndReport. keeps_flag. Qed.

Lemma getContactCount_keeps_flag :
  preserves permissionsChecked (getContactCount osascript showParseInt).
Proof. unfold getContactCount. keeps_flag. Qed.

Lemma getContactNames_keeps_flag (limit : option Z) :
  preserves permissionsChecked (getContactNames osascript limit).
Proof. unfold getContactNames. keeps_flag. Qed.

Lemma testContactProcessing_keeps_flag (sample_size : option Z) :
  preserves permissionsChecked
    (testContactProcessing osascript sample_size).
Proof. unfold testContactProcessing. keeps_flag. Qed.

Lemma searchContacts_keeps_flag (query : option jsstring) :
  preserves permissionsChecked (searchContacts osascript query).
Proof. unfold searchContacts. keeps_flag. Qed.

Lemma getContactByName_keeps_flag (name : jsstring) (exact_match : bool) :
  preserves permissionsChecked
    (getContactByName osascript name exact_match).
Proof. unfold getContactByName. keeps_flag. Qed.

End ServerFacts.

#[local] Hint Resolve executeAppleScript_keeps_flag checkPermissions_keeps_flag
  : flag.

(** ** The [permissionsChecked] flag *)

Lemma preserves_neverResets {A} (m : M A) :
  preserves permissionsChecked m -> neverResets m.
Proof. intros H st Hst. now rewrite H. Qed.

Lemma neverResets_bind {A B} (m : M A) (k : A -> M B) :
  neverResets m -> (forall a, neverResets (k a)) -> neverResets (bind m k).
Proof.
  intros Hm Hk st Hst. unfold bind. specialize (Hm st Hst).
  destruct (m st) as [[a|e] st']; cbn [snd] in *; [|exact Hm].
  now apply Hk.
Qed.

Lemma neverResets_tryM {A} (body : M A) (handler : error -> M A) :
  neverResets body -> (forall e, neverResets (handler e)) ->
  neverResets (tryM body handler).
Proof.
  intros Hb Hh st Hst. unfold tryM. specialize (Hb st Hst).
  destruct (body st) as [[a|e] st']; cbn [snd] in *; [exact Hb|].
  now apply Hh.
Qed.

Lemma setPermissionsChecked_true_neverResets :
  neverResets (setPermissionsChecked true).
Proof. intros st _. reflexivity. Qed.

Ltac resets_step :=
  match goal with
  | |- neverResets (setPermissionsChecked true) =>
      exact setPermissionsChecked_true_neverResets
  | |- neverResets (bind _ _) => apply neverResets_bind; [|intros ?]
  | |- neverResets (tryM _ _) => apply neverResets_tryM; [|intros ?]
  | |- neverResets (if ?b then _ else _) => destruct b
  | |- neverResets (match ?x with _ => _ end) => destruct x
  | |- neverResets (let _ := _ in _) => cbv zeta
  | |- neverResets _ => apply preserves_neverResets; solve [keeps_flag]
  end.

Section Gate.

Variable osascript : list (jsstring * Z) -> jsstring -> Z -> procExit.
Variable showParseInt : jsstring -> jsstring.
Variable JSON_stringify : list formattedContact -> jsstring.

Lemma getContactsData_neverResets : neverResets (getContactsData osascript).
Proof. unfold getContactsData. repeat resets_step. Qed.

Lemma getContactsDataUnlimited_neverResets :
  neverResets (getContactsDataUnlimited osascript).
Proof. unfold getContactsDataUnlimited. repeat resets_step. Qed.

Lemma gatedFetch_neverResets (unlimited : bool) :
  neverResets (gatedFetch osascript unlimited).
Proof.
  destruct unlimited;
    [apply getContactsDataUnlimited_neverResets
    |apply getContactsData_neverResets].
Qed.

Lemma handleRequest_neverResets (req : request) :
  neverResets (handleRequest osascript showParseInt JSON_stringify req).
Proof.
  unfold handleRequest. apply neverResets_tryM.
  - destruct req.
    + apply preserves_neverResets, searchContacts_keeps_flag.
    + apply preserves_neverResets, getContactByName_keeps_flag.
    + unfold getAllContacts. apply neverResets_bind.
      * apply gatedFetch_neverResets.
      * intros contacts. apply preserves_neverResets. keeps_flag.
    + apply preserves_neverResets, checkPermissionsAndReport_keeps_flag.
    + apply preserves_neverResets, testContactProcessing_keeps_flag.
    + apply preserves_neverResets, getContactCount_keeps_flag.
    + apply preserves_neverResets, getContactNames_keeps_flag.
    + apply preserves_neverResets. keeps_flag.
  - intros e. apply preserves_neverResets. keeps_flag.
Qed.

Lemma serve_neverResets (reqs : list request) (st : server) :
  permissionsChecked st = true ->
  permissionsChecked
    (serve osascript showParseInt JSON_stringify reqs st) = true.
Proof.
  revert st. induction reqs as [|req reqs IH]; intros st Hst; [exact Hst|].
  cbn [serve fold_left]. apply IH. now apply handleRequest_neverResets.
Qed.

End Gate.

Lemma bind_spawned {A B} (m : M A) (k : A -> M B) (st : server) :
  (forall a, preserves spawned (k a)) ->
  spawned (snd (bind m k st)) = spawned (snd (m st)).
Proof.
  intros Hk. unfold bind.
  destruct (m st) as [[a|e] st']; cbn [snd]; [apply Hk|reflexivity].
Qed.

Section GatedFetch.

Variable osascript : list (jsstring * Z) -> jsstring -> Z -> procExit.

(** Enter a gated fetch: read the flag, and branch on it. *)
Ltac enter_gate st Hflag :=
  rewrite (bind_returned getPermissionsChecked _ st
             (permissionsChecked st) st eq_refl);
  cbv beta; rewrite Hflag; cbn [negb].

(** Run the guarded check of a gated fetch when [checkPermissions]
    returns. *)
Ltac pass_gate st st1 Hcheck :=
  match goal with
  | |- context [bind (tryM ?body ?handler) ?k st] =>
      let Hgate := fresh "Hgate" in
      assert (Hgate : tryM body handler st =
                      (Returned tt,
                       withConsole (withPermissionsChecked st1 true)
                         [lit "Initial permissions check passed"]))
        by (apply tryM_returned;
            rewrite (bind_returned _ _ _ _ _ Hcheck); reflexivity);
      rewrite (bind_returned _ k _ _ _ Hgate); cbv beta
  end.

(** Run the guarded check of a gated fetch when [checkPermissions]
    throws. *)
Ltac fail_gate st st1 e Hcheck :=
  match goal with
  | |- context [bind (tryM ?body ?handler) ?k st] =>
      let Hgate := fresh "Hgate" in
      assert (Hgate : tryM body handler st =
                      (Thrown e,
                       withConsole st1
                         [lit "Permission check failed: " ++ message e]))
        by (rewrite (tryM_thrown body handler st e st1);
            [reflexivity|apply (bind_thrown _ _ _ _ _ Hcheck)]);
      rewrite (bind_thrown _ k _ _ _ Hgate)
  end.

Lemma gatedFetch_sets_flag (unlimited : bool) (st st1 : server) :
  permissionsChecked st = false ->
  checkPermissions osascript st = (Returned tt, st1) ->
  permissionsChecked (snd (gatedFetch osascript unlimited st)) = true.
Proof.
  intros Hflag Hcheck.
  destruct unlimited; cbn [gatedFetch];
    [unfold getContactsDataUnlimited|unfold getContactsData];
    enter_gate st Hflag; pass_gate st st1 Hcheck;
    match goal with
    | |- permissionsChecked (snd (?rest ?st2)) = true =>
        assert (Hrest : preserves permissionsChecked rest) by keeps_flag;
        rewrite Hrest; reflexivity
    end.
Qed.

Lemma gatedFetch_failure_not_cached
    (unlimited : bool) (st st1 : server) (e : error) :
  permissionsChecked st = false ->
  checkPermissions osascript st = (Thrown e, st1) ->
  exists st',
    gatedFetch osascript unlimited st = (Thrown e, st') /\
    permissionsChecked st' = false.
Proof.
  intros Hflag Hcheck.
  assert (Hst1 : permissionsChecked st1 = false).
  { pose proof (checkPermissions_keeps_flag osascript st) as H.
    rewrite Hcheck in H. cbn [snd] in H. congruence. }
  exists (withConsole st1 [lit "Permission check failed: " ++ message e]).
  split; [|exact Hst1].
  destruct unlimited; cbn [gatedFetch];
    [unfold getContactsDataUnlimited|unfold getContactsData];
    enter_gate st Hflag; fail_gate st st1 e Hcheck; reflexivity.
Qed.

Lemma gatedFetch_short_circuits (unlimited : bool) (st : server) :
  permissionsChecked st = true ->
  spawned (snd (gatedFetch osascript unlimited st)) =
  spawned st ++ [(commandLine (fetchScript unlimited),
                  timeoutFor (fetchScript unlimited))].
Proof.
  intros Hflag.
  destruct unlimited; cbn [gatedFetch fetchScript];
    [unfold getContactsDataUnlimited|unfold getContactsData];
    enter_gate st Hflag;
    rewrite (bind_returned (ret tt) _ st tt st eq_refl); cbv beta;
    (rewrite bind_spawned; [apply executeAppleScript_spawns|]);
    intros result; keeps_spawned.
Qed.

End GatedFetch.

Lemma ungated_request_keeps_flag
    (osascript : list (jsstring * Z) -> jsstring -> Z -> procExit)
    (showParseInt : jsstring -> jsstring)
    (JSON_stringify : list formattedContact -> jsstring)
    (req : request) :
  (forall limit unlimited, req <> get_all_contacts limit unlimited) ->
  preserves permissionsChecked
    (handleRequest osascript showParseInt JSON_stringify req).
Proof.
  intros Hreq. unfold handleRequest. apply preserves_tryM.
  - destruct req.
    + apply searchContacts_keeps_flag.
    + apply getContactByName_keeps_flag.
    + exfalso. eapply Hreq. reflexivity.
    + apply checkPermissionsAndReport_keeps_flag.
    + apply testContactProcessing_keeps_flag.
    + apply getContactCount_keeps_flag.
    + apply getContactNames_keeps_flag.
    + keeps_flag.
  - intros e. keeps_flag.
Qed.




(** ** [getContactNames] *)

(** C8. [getContactNames] reads the limit and writes it to the console,
    but the script it runs is the fixed request for the names of persons 1
    to 3: whatever the limit, that script is the one command spawned, and
    on an address book of five contacts a limit of 5, like a limit of 1,
    is answered with the first three names. *)
Theorem getContactNames_lists_three_names_whatever_the_limit :
  (forall osascript limit st,
      spawned (snd (getContactNames osascript limit st)) =
      spawned st ++ [(commandLine namesScript, 30000%Z)]) /\
  fst (getContactNames (Host.addressBook Host.fiveNames) (Some 5%Z)
         constructor) =
  Returned ([55357%N; 56541%N] ++ lit " First 3 contact names:" ++ [LF; LF]
            ++ lit "1. Ann Lee" ++ [LF] ++ lit "2. Bob Ray" ++ [LF]
            ++ lit "3. Cy Wu" ++ [LF; LF]
            ++ lit "This tests basic contact field access without complex data extraction.") /\
  fst (getContactNames (Host.addressBook Host.fiveNames) (Some 1%Z)
         constructor) =
  fst (getContactNames (Host.addressBook Host.fiveNames) (Some 5%Z)
         constructor).
Proof.
  split; [|split; vm_compute; reflexivity].
  intros osascript limit st. unfold getContactNames. cbv zeta.
  match goal with
  | |- context [bind (consoleError ?line) ?k st] =>
      rewrite (bind_returned (consoleError line) k st tt
                 (withConsole st [line]) eq_refl)
  end.
  unfold tryM, bind.
  match goal with
  | |- context [executeAppleScript osascript namesScript ?st1] =>
      pose proof (executeAppleScript_run osascript namesScript st1) as H
  end.
  cbv zeta in H. rewrite H.
  destruct (exit_status _) as [| |[| |]]; reflexivity.
Qed.

(** * Further properties of the code *)

(** ** What the parser's records are made of *)

Lemma split_piece_free (sep : codeunit) (s p : jsstring) :
  In p (split sep s) -> ~ In sep p.
Proof.
  revert p. induction s as [|c r IH]; intros p; simpl.
  - intros [<-|[]]. tauto.
  - destruct (N.eqb_spec c sep) as [->|Hc].
    + intros [<-|H]; [tauto|now apply IH].
    + destruct (split sep r) as [|piece pieces] eqn:E.
      * intros [<-|[]]. simpl. intuition congruence.
      * intros [<-|H].
        -- simpl. intros [?|?]; [congruence|].
           apply (IH piece); [now left|assumption].
        -- apply IH. now right.
Qed.

Lemma split_piece_sub (sep : codeunit) (s p : jsstring) :
  In p (split sep s) -> forall x, In x p -> In x s.
Proof.
  revert p. induction s as [|c r IH]; intros p; simpl.
  - intros [<-|[]] x [].
  - destruct (N.eqb_spec c sep) as [->|Hc].
    + intros [<-|H] x Hx; [destruct Hx|]. right. now apply (IH p).
    + destruct (split sep r) as [|piece pieces] eqn:E.
      * intros [<-|[]] x [<-|[]]. now left.
      * intros [<-|H] x Hx.
        -- destruct Hx as [<-|Hx]; [now left|].
           right. apply (IH piece); [now left|assumption].
        -- right. apply (IH p); [now right|assumption].
Qed.

Lemma parseText_In (data : jsstring) (c : contact) :
  In c (parseText data) ->
  exists line,
    In line (split LF data) /\ nonBlank line /\
    8 <= length (split TAB line) /\
    c = contactOfFields (split TAB line).
Proof.
  rewrite parseText_map_filter, in_map_iff.
  intros [line [<- Hline]]. apply filter_In in Hline as [Hline Hlen].
  unfold linesOf in Hline. apply filter_In in Hline as [Hline Hnb].
  exists line. repeat split; try assumption. now apply Nat.leb_le.
Qed.

Lemma fieldOrEmpty_cases (fields : list jsstring) (i : nat) :
  fieldOrEmpty fields i = [] \/ In (fieldOrEmpty fields i) fields.
Proof.
  unfold fieldOrEmpty. destruct (nth_error fields i) as [s|] eqn:E; [|now left].
  destruct (truthy s); [|now left]. right. eapply nth_error_In, E.
Qed.

Lemma fieldSplitList_In (fields : list jsstring) (i : nat) (item : jsstring) :
  In item (fieldSplitList fields i) ->
  exists field,
    In field fields /\ In item (split SEMI field) /\ nonBlank item.
Proof.
  unfold fieldSplitList. destruct (nth_error fields i) as [s|] eqn:E; [|intros []].
  destruct (truthy s); [|intros []].
  intros H. apply filter_In in H as [H Hnb].
  exists s. repeat split; try assumption. eapply nth_error_In, E.
Qed.

(** X1. Whatever the input text, every record the parser returns is made
    of clean parts: none of its six text fields holds a tab or a newline,
    and every email and every phone is non-blank and holds no tab, newline
    or semicolon. *)
Theorem parsed_records_are_clean
    (data : jsstring) (contacts : list contact) (c : contact) :
  parseContactsFromDelimitedData (JStr data) = Returned contacts ->
  In c contacts ->
  Forall fieldText
    [name c; firstName c; lastName c; organization c; note c; birthday c] /\
  Forall (fun item => itemText item /\ nonBlank item) (emails c) /\
  Forall (fun item => itemText item /\ nonBlank item) (phones c).
Proof.
  intros Hparse Hin. injection Hparse as <-.
  apply parseText_In in Hin as (line & Hline & _ & _ & ->).
  assert (Hfield : forall field,
             In field (split TAB line) -> fieldText field).
  { intros field Hf. split; [now apply split_piece_free in Hf|].
    intros Hlf. apply (split_piece_free LF data line Hline).
    now apply (split_piece_sub TAB line field Hf). }
  assert (Htext : forall i, fieldText (fieldOrEmpty (split TAB line) i)).
  { intros i. destruct (fieldOrEmpty_cases (split TAB line) i) as [->|H];
      [split; intros []|now apply Hfield]. }
  assert (Hitems : forall i,
             Forall (fun item => itemText item /\ nonBlank item)
                    (fieldSplitList (split TAB line) i)).
  { intros i. apply Forall_forall. intros item Hitem.
    apply fieldSplitList_In in Hitem as (field & Hf & Hsplit & Hnb).
    split; [|exact Hnb]. destruct (Hfield field Hf) as [Htab Hlf].
    repeat split.
    - intros H. apply Htab. now apply (split_piece_sub SEMI field item Hsplit).
    - intros H. apply Hlf. now apply (split_piece_sub SEMI field item Hsplit).
    - now apply split_piece_free in Hsplit. }
  split; [|split]; [|apply Hitems..].
  repeat constructor; apply Htext.
Qed.

(** X1 on the mock data of the test suite: the record of Jane Smith. *)
Lemma parsed_records_are_clean_witness :
  let jane :=
    {| name := lit "Jane Smith"; firstName := lit "Jane";
       lastName := lit "Smith"; organization := [];
       note := lit "Another note"; birthday := [];
       emails := [lit "jane@example.com"]; phones := [lit "555-9999"] |} in
  Forall fieldText
    [name jane; firstName jane; lastName jane; organization jane; note jane;
     birthday jane] /\
  Forall (fun item => itemText item /\ nonBlank item) (emails jane) /\
  Forall (fun item => itemText item /\ nonBlank item) (phones jane).
Proof.
  apply (parsed_records_are_clean
           (join LF [join TAB [lit "John Doe"; lit "John"; lit "Doe";
                               lit "Acme Corp"; lit "Test note"; [];
                               lit "john@example.com"; lit "555-1234"];
                     join TAB [lit "Jane Smith"; lit "Jane"; lit "Smith"; [];
                               lit "Another note"; [];
                               lit "jane@example.com"; lit "555-9999"]])
           _ _ eq_refl).
  vm_compute. right. left. reflexivity.
Defined.

(** ** Line splitting without carriage returns *)

Lemma blank_nil_filtered (rest : list jsstring) :
  filter (fun line => truthy (trim line)) ([] :: rest) =
  filter (fun line => truthy (trim line)) rest.
Proof. reflexivity. Qed.

Lemma split_versus_splitRuns (s : jsstring) :
  ~ In CR s ->
  (exists piece pieces pieces',
      split LF s = piece :: pieces /\
      splitRuns false s = piece :: pieces' /\
      filter (fun line => truthy (trim line)) pieces =
      filter (fun line => truthy (trim line)) pieces') /\
  filter (fun line => truthy (trim line)) (splitRuns true s) =
  filter (fun line => truthy (trim line)) (split LF s).
Proof.
  induction s as [|c r IH]; intros Hcr.
  - split; [|reflexivity]. now exists [], [], [].
  - assert (Hc : (c =? CR)%N = false)
      by (apply N.eqb_neq; intros ->; apply Hcr; now left).
    destruct IH as [(piece & pieces & pieces' & Hs & Hr & Hf) Htrue];
      [intros H; apply Hcr; now right|].
    cbn [split splitRuns]. rewrite Hc. cbn [orb].
    destruct (c =? LF)%N.
    + split.
      * exists [], (split LF r), (splitRuns true r).
        repeat split. now rewrite Htrue.
      * now rewrite blank_nil_filtered.
    + rewrite Hs, Hr. split.
      * now exists (c :: piece), pieces, pieces'.
      * cbn [filter]. now rewrite Hf.
Qed.

(** X2. On text that holds no carriage return the parser's lines are the
    lines the specification asks for: splitting on the newline character and
    dropping blank lines gives the same as splitting on runs of carriage
    returns and newlines and dropping blank lines. *)
Theorem lines_agree_without_carriage_returns (data : jsstring) :
  ~ In CR data -> linesOf data = linesOf_spec data.
Proof.
  intros Hcr. unfold linesOf, linesOf_spec, splitLines.
  destruct (split_versus_splitRuns data Hcr)
    as [(piece & pieces & pieces' & -> & -> & Hf) _].
  cbn [filter]. now rewrite Hf.
Qed.

(** X2 on two records around an empty line. *)
Lemma lines_agree_without_carriage_returns_witness :
  linesOf (join LF [Host.annRecord; []; Host.bobRecord]) =
  linesOf_spec (join LF [Host.annRecord; []; Host.bobRecord]).
Proof.
  apply lines_agree_without_carriage_returns.
  vm_compute. intuition discriminate.
Defined.

(** ** [matchesField] and [matchesArrayField] *)

Lemma strictEq_spec (s t : jsstring) : strictEq s t = true <-> s = t.
Proof.
  revert t. induction s as [|a s IH]; intros [|b t]; simpl;
    try (split; [discriminate|discriminate]); [tauto|].
  rewrite andb_true_iff, N.eqb_eq, IH. split.
  - intros [-> ->]. reflexivity.
  - intros H. injection H as -> ->. tauto.
Qed.

Lemma includes_refl (s : jsstring) : includes s s = true.
Proof. apply includes_spec. exists [], []. now rewrite app_nil_r. Qed.

(** How one text matches a search value, for the two modes. *)
Lemma match_mode_spec
    (exact : bool) (textLower searchValue : jsstring) :
  (if exact then strictEq textLower searchValue
   else includes textLower searchValue) = true <->
  (if exact then textLower = searchValue
   else isSubstring searchValue textLower).
Proof. destruct exact; [apply strictEq_spec|apply includes_spec]. Qed.

(** X3. [matchesField] answers true, for every key, when the value is
    absent or empty.  For any other value and a key that holds text it
    answers false when the text is empty, and otherwise true exactly when
    the lower-cased text equals the lower-cased value (exact mode) or
    contains it (substring mode).  For a key that holds an array (emails,
    phones) it throws. *)
Theorem matchesField_decides
    (toLowerCase : jsstring -> jsstring) (c : contact) (key : contactKey)
    (exact : bool) :
  matchesField toLowerCase c key None exact = Returned true /\
  matchesField toLowerCase c key (Some []) exact = Returned true /\
  forall v : jsstring,
    v <> [] ->
    match getProperty c key with
    | PText text =>
        exists b,
          matchesField toLowerCase c key (Some v) exact = Returned b /\
          (b = true <->
           text <> [] /\
           if exact then toLowerCase text = toLowerCase v
           else isSubstring (toLowerCase v) (toLowerCase text))
    | PArray _ =>
        exists e, matchesField toLowerCase c key (Some v) exact = Thrown e
    end.
Proof.
  split; [reflexivity|split; [reflexivity|]].
  intros v Hv. apply truthy_nonempty in Hv.
  unfold matchesField. rewrite Hv. cbn [negb].
  destruct (getProperty c key) as [text|items]; [|eexists; reflexivity].
  destruct text as [|a text]; cbn [truthy negb].
  - exists false. split; [reflexivity|].
    split; [discriminate|intros [H _]; congruence].
  - eexists. split; [reflexivity|]. cbv zeta. rewrite match_mode_spec.
    split; [intros H; split; [discriminate|exact H]|tauto].
Qed.

(** X3 with ASCII lower-casing: [acme corp] is the organization of the
    example record in exact mode. *)
Lemma matchesField_decides_witness :
  match getProperty Host.johnDoe K_organization with
  | PText text =>
      exists b,
        matchesField Host.asciiLower Host.johnDoe K_organization
          (Some (lit "acme corp")) true = Returned b /\
        (b = true <->
         text <> [] /\
         Host.asciiLower text = Host.asciiLower (lit "acme corp"))
  | PArray _ =>
      exists e,
        matchesField Host.asciiLower Host.johnDoe K_organization
          (Some (lit "acme corp")) true = Thrown e
  end.
Proof.
  apply (proj2 (proj2 (matchesField_decides Host.asciiLower Host.johnDoe
                         K_organization true)) (lit "acme corp")).
  discriminate.
Defined.

(** X4. [matchesArrayField] answers false, for every key, when the value
    is absent or empty.  For any other value and a key that holds an array
    it answers true exactly when some item, lower-cased, equals the
    lower-cased value (exact mode) or contains it (substring mode), so
    false on an empty array.  For a key that holds text it answers false
    when the text is empty and throws when it is not. *)
Theorem matchesArrayField_decides
    (toLowerCase : jsstring -> jsstring) (c : contact) (key : contactKey)
    (exact : bool) :
  matchesArrayField toLowerCase c key None exact = Returned false /\
  matchesArrayField toLowerCase c key (Some []) exact = Returned false /\
  forall v : jsstring,
    v <> [] ->
    match getProperty c key with
    | PArray items =>
        exists b,
          matchesArrayField toLowerCase c key (Some v) exact = Returned b /\
          (b = true <->
           exists item,
             In item items /\
             if exact then toLowerCase item = toLowerCase v
             else isSubstring (toLowerCase v) (toLowerCase item))
    | PText [] =>
        matchesArrayField toLowerCase c key (Some v) exact = Returned false
    | PText (_ :: _) =>
        exists e,
          matchesArrayField toLowerCase c key (Some v) exact = Thrown e
    end.
Proof.
  split; [reflexivity|split; [reflexivity|]].
  intros v Hv. apply truthy_nonempty in Hv.
  unfold matchesArrayField. rewrite Hv. cbn [negb].
  destruct (getProperty c key) as [[|a text]|items];
    [reflexivity|eexists; reflexivity|].
  eexists. split; [reflexivity|]. cbv zeta. rewrite existsb_exists.
  split; intros [item [Hin H]]; exists item; (split; [exact Hin|]);
    now apply match_mode_spec.
Qed.

(** X4 with ASCII lower-casing: [EXAMPLE.COM] is found among the emails of
    the example record in substring mode. *)
Lemma matchesArrayField_decides_witness :
  match getProperty Host.johnDoe K_emails with
  | PArray items =>
      exists b,
        matchesArrayField Host.asciiLower Host.johnDoe K_emails
          (Some (lit "EXAMPLE.COM")) false = Returned b /\
        (b = true <->
         exists item,
           In item items /\
           isSubstring (Host.asciiLower (lit "EXAMPLE.COM"))
             (Host.asciiLower item))
  | PText [] =>
      matchesArrayField Host.asciiLower Host.johnDoe K_emails
        (Some (lit "EXAMPLE.COM")) false = Returned false
  | PText (_ :: _) =>
      exists e,
        matchesArrayField Host.asciiLower Host.johnDoe K_emails
          (Some (lit "EXAMPLE.COM")) false = Thrown e
  end.
Proof.
  apply (proj2 (proj2 (matchesArrayField_decides Host.asciiLower Host.johnDoe
                         K_emails false)) (lit "EXAMPLE.COM")).
  discriminate.
Defined.

Lemma matchesQuery_by_field
    (toLowerCase : jsstring -> jsstring) (c : contact) (v field : jsstring) :
  v <> [] ->
  In field (candidateFields c) ->
  field <> [] ->
  includes (toLowerCase field) (toLowerCase v) = true ->
  matchesQuery toLowerCase c (Some v) = true.
Proof.
  intros Hv Hin Hfield Hinc. unfold matchesQuery.
  apply truthy_nonempty in Hv. rewrite Hv. cbn [negb].
  apply existsb_exists. exists field. split; [|exact Hinc].
  apply filter_In. split; [exact Hin|now apply truthy_nonempty].
Qed.

Lemma match_mode_includes
    (exact : bool) (textLower searchValue : jsstring) :
  (if exact then strictEq textLower searchValue
   else includes textLower searchValue) = true ->
  includes textLower searchValue = true.
Proof.
  destruct exact; [|tauto]. intros H. apply strictEq_spec in H as ->.
  apply includes_refl.
Qed.

(** X5. The field filters are finer than the free-text query: when
    [matchesField] answers true for a non-empty value on name, firstName,
    lastName, organization or note, in either mode, [matchesQuery] answers
    true for that value too; and so it does when [matchesArrayField]
    answers true on emails or phones, provided the record's emails and
    phones are non-empty strings, as the parser's are. *)
Theorem field_match_implies_query_match
    (toLowerCase : jsstring -> jsstring) (c : contact) (key : contactKey)
    (v : jsstring) (exact : bool) :
  v <> [] ->
  (key <> K_birthday ->
   matchesField toLowerCase c key (Some v) exact = Returned true ->
   matchesQuery toLowerCase c (Some v) = true) /\
  (Forall (fun item => item <> []) (emails c ++ phones c) ->
   matchesArrayField toLowerCase c key (Some v) exact = Returned true ->
   matchesQuery toLowerCase c (Some v) = true).
Proof.
  intros Hv. pose proof Hv as Hvt. apply truthy_nonempty in Hvt. split.
  - intros Hkey. unfold matchesField. rewrite Hvt. cbn [negb].
    destruct key; cbn [getProperty]; try congruence; try discriminate;
      match goal with
      | |- context [truthy ?text] =>
          destruct (truthy text) eqn:Htext; cbn [negb];
            [|discriminate];
            intros [= H]; apply match_mode_includes in H;
            apply (matchesQuery_by_field toLowerCase c v text Hv);
              [unfold candidateFields; simpl; tauto
              |now apply truthy_nonempty
              |exact H]
      end.
  - intros Hitems. unfold matchesArrayField. rewrite Hvt. cbn [negb].
    destruct key; cbn [getProperty];
      try (match goal with
           | |- context [truthy ?text] => destruct (truthy text)
           end; discriminate);
      cbv zeta; intros [= H]; apply existsb_exists in H as [item [Hin H]];
      apply match_mode_includes in H;
      apply (matchesQuery_by_field toLowerCase c v item Hv);
        try exact H;
        try (rewrite Forall_forall in Hitems; apply Hitems;
             apply in_app_iff; tauto);
        unfold candidateFields; rewrite !in_app_iff; tauto.
Qed.

(** X5 with ASCII lower-casing on the example record: its organization in
    exact mode and one of its phones in substring mode. *)
Lemma field_match_implies_query_match_witness :
  matchesQuery Host.asciiLower Host.johnDoe (Some (lit "ACME CORP")) = true /\
  matchesQuery Host.asciiLower Host.johnDoe (Some (lit "555")) = true.
Proof.
  split.
  - apply (proj1 (field_match_implies_query_match Host.asciiLower
                    Host.johnDoe K_organization (lit "ACME CORP") true
                    ltac:(discriminate)));
      [discriminate|reflexivity].
  - apply (proj2 (field_match_implies_query_match Host.asciiLower
                    Host.johnDoe K_phones (lit "555") false
                    ltac:(discriminate)));
      [repeat constructor; discriminate|reflexivity].
Defined.

(** ** What [trim] leaves *)

Lemma trimStart_split (s : jsstring) :
  exists white, s = white ++ trimStart s /\ allWhite white.
Proof.
  induction s as [|c r (white & Hr & Hw)];
    [exists []; split; [reflexivity|constructor]|].
  simpl. destruct (isWhiteSpace c) eqn:E.
  - exists (c :: white). split; [simpl; now rewrite <- Hr|now constructor].
  - exists []. split; [reflexivity|constructor].
Qed.

Lemma trimStart_head (s : jsstring) (c : codeunit) (r : jsstring) :
  trimStart s = c :: r -> isWhiteSpace c = false.
Proof.
  induction s as [|a s IH]; simpl; [discriminate|].
  destruct (isWhiteSpace a) eqn:E; [exact IH|]. now intros [= <- _].
Qed.

Lemma allWhite_rev (s : jsstring) : allWhite s -> allWhite (rev s).
Proof. apply Forall_rev. Qed.

Lemma trim_split (s : jsstring) :
  exists before after,
    s = before ++ trim s ++ after /\ allWhite before /\ allWhite after.
Proof.
  destruct (trimStart_split s) as (before & Hs & Hb).
  destruct (trimStart_split (rev (trimStart s))) as (white & Hr & Hw).
  exists before, (rev white). repeat split; [|exact Hb|now apply allWhite_rev].
  unfold trim, trimEnd. rewrite <- rev_app_distr, <- Hr, rev_involutive.
  exact Hs.
Qed.

Lemma trim_trimmed (s : jsstring) : trimmed (trim s).
Proof.
  unfold trimmed. destruct (trim s) as [|c r] eqn:E; [exact I|].
  unfold trim, trimEnd in E.
  destruct (trimStart_split (rev (trimStart s))) as (white & Hr & Hw).
  destruct (trimStart (rev (trimStart s))) as [|x u] eqn:Eu;
    [discriminate|].
  split.
  - apply (f_equal (@rev codeunit)) in Hr.
    rewrite rev_involutive, rev_app_distr, E in Hr.
    eapply trimStart_head. exact Hr.
  - rewrite <- E. simpl. rewrite last_last.
    eapply trimStart_head. exact Eu.
Qed.

(** ** [executeAppleScript], [checkPermissions] and the tools *)

Section Outcomes.

Variable osascript : list (jsstring * Z) -> jsstring -> Z -> procExit.
Variable showParseInt : jsstring -> jsstring.
Variable JSON_stringify : list formattedContact -> jsstring.

Lemma executeAppleScript_ok (script : jsstring) (st : server) :
  exit_status (osascript (spawned st) (commandLine script)
                 (timeoutFor script)) = StatusCode 0 ->
  executeAppleScript osascript script st =
  (Returned (trim (exit_stdout (osascript (spawned st) (commandLine script)
                                  (timeoutFor script)))),
   withSpawned st (commandLine script, timeoutFor script)).
Proof.
  intros H. pose proof (executeAppleScript_run osascript script st) as R.
  cbv zeta in R. cbn [fst snd] in R. now rewrite H in R.
Qed.

Lemma executeAppleScript_failed (script : jsstring) (st : server) :
  exit_status (osascript (spawned st) (commandLine script)
                 (timeoutFor script)) <> StatusCode 0 ->
  exists st',
    executeAppleScript osascript script st =
    (Thrown (newError
               (lit "Failed to execute AppleScript (exit code: "
                  ++ showStatus
                       (exit_status (osascript (spawned st)
                                       (commandLine script)
                                       (timeoutFor script)))
                  ++ lit ")")),
     st') /\
    spawned st' = spawned st ++ [(commandLine script, timeoutFor script)] /\
    permissionsChecked st' = permissionsChecked st.
Proof.
  intros H. pose proof (executeAppleScript_run osascript script st) as R.
  cbv zeta in R. cbn [fst snd] in R.
  destruct (exit_status _) as [| |[| |]] eqn:E; try congruence;
    eexists; (split; [exact R|split; reflexivity]).
Qed.

(** X6. When the process exits with status 0, [executeAppleScript]
    returns its standard output without the white space at either end:
    the output is the returned text between two runs of white space, and
    the returned text neither starts nor ends with white space.  Nothing
    is written to the console. *)
Theorem executeAppleScript_returns_trimmed_output
    (script : jsstring) (st : server) :
  let r := osascript (spawned st) (commandLine script) (timeoutFor script) in
  exit_status r = StatusCode 0 ->
  exists result before after,
    executeAppleScript osascript script st =
    (Returned result,
     withSpawned st (commandLine script, timeoutFor script)) /\
    exit_stdout r = before ++ result ++ after /\
    allWhite before /\ allWhite after /\ trimmed result.
Proof.
  intros r H.
  destruct (trim_split (exit_stdout r)) as (before & after & Hs & Hb & Ha).
  exists (trim (exit_stdout r)), before, after.
  split; [now apply executeAppleScript_ok|].
  repeat split; try assumption. apply trim_trimmed.
Qed.

Lemma checkPermissions_first_probe_fails (st : server) :
  exit_status (osascript (spawned st)
                 (fst systemEventsProbe) (snd systemEventsProbe))
  <> StatusCode 0 ->
  exists st',
    checkPermissions osascript st =
    (Thrown (newError (lit "System Events not accessible")), st') /\
    spawned st' = spawned st ++ [systemEventsProbe].
Proof.
  unfold systemEventsProbe. cbn [fst snd].
  change 30000%Z with (timeoutFor checkPermissions_testScript).
  intros H1.
  destruct (executeAppleScript_failed checkPermissions_testScript st H1)
    as (st1 & E1 & Hsp & _).
  eexists. split.
  - unfold checkPermissions.
    erewrite bind_thrown; [reflexivity|].
    erewrite tryM_thrown; [|erewrite bind_thrown; [reflexivity|exact E1]].
    reflexivity.
  - exact Hsp.
Qed.

(** X7. [checkPermissions] has three outcomes.  When the System Events
    probe does not exit with 0 it throws [System Events not accessible]
    and the Contacts probe is not run.  When the first probe exits with 0
    and the Contacts probe does not, it throws [Contacts app not
    accessible - permission not granted].  When both exit with 0 it
    returns, having written nothing to the console. *)
Theorem checkPermissions_outcomes (st : server) :
  let r1 := osascript (spawned st)
              (fst systemEventsProbe) (snd systemEventsProbe) in
  let r2 := osascript (spawned st ++ [systemEventsProbe])
              (fst contactsProbe) (snd contactsProbe) in
  (exit_status r1 <> StatusCode 0 ->
   exists st',
     checkPermissions osascript st =
     (Thrown (newError (lit "System Events not accessible")), st') /\
     spawned st' = spawned st ++ [systemEventsProbe]) /\
  (exit_status r1 = StatusCode 0 ->
   exit_status r2 <> StatusCode 0 ->
   exists st',
     checkPermissions osascript st =
     (Thrown (newError
                (lit "Contacts app not accessible - permission not granted")),
      st') /\
     spawned st' = spawned st ++ [systemEventsProbe; contactsProbe]) /\
  (exit_status r1 = StatusCode 0 ->
   exit_status r2 = StatusCode 0 ->
   checkPermissions osascript st =
   (Returned tt,
    withSpawned (withSpawned st systemEventsProbe) contactsProbe)).
Proof.
  cbv zeta. split; [apply checkPermissions_first_probe_fails|].
  unfold systemEventsProbe, contactsProbe. cbn [fst snd].
  change 30000%Z with (timeoutFor checkPermissions_testScript) at 1 2 3 4 5.
  change 30000%Z with (timeoutFor contactsTestScript).
  split.
  - intros H1 H2.
    pose proof (executeAppleScript_ok checkPermissions_testScript st H1) as E1.
    set (st1 := withSpawned st _) in *.
    destruct (executeAppleScript_failed contactsTestScript st1 H2)
      as (st2 & E2 & Hsp & _).
    eexists. split.
    + unfold checkPermissions.
      erewrite bind_returned;
        [|erewrite tryM_returned;
          [reflexivity|erewrite bind_returned; [reflexivity|exact E1]]].
      erewrite tryM_thrown; [|erewrite bind_thrown; [reflexivity|exact E2]].
      reflexivity.
    + unfold bind, consoleError, throw. cbn [spawned withConsole].
      rewrite Hsp. subst st1. cbn [spawned withSpawned].
      now rewrite <- app_assoc.
  - intros H1 H2.
    pose proof (executeAppleScript_ok checkPermissions_testScript st H1) as E1.
    set (st1 := withSpawned st _) in *.
    pose proof (executeAppleScript_ok contactsTestScript st1 H2) as E2.
    unfold checkPermissions.
    erewrite bind_returned;
      [|erewrite tryM_returned;
        [reflexivity|erewrite bind_returned; [reflexivity|exact E1]]].
    erewrite tryM_returned;
      [reflexivity|erewrite bind_returned; [reflexivity|exact E2]].
Qed.

End Outcomes.

(** X6 on a host that answers every command with [Hello World] and a
    newline. *)
Lemma executeAppleScript_returns_trimmed_output_witness :
  exists result before after,
    executeAppleScript (Host.always 0 (lit "Hello World" ++ [LF]) [])
      (lit "return 1") constructor =
    (Returned result,
     withSpawned constructor
       (commandLine (lit "return 1"), timeoutFor (lit "return 1"))) /\
    lit "Hello World" ++ [LF] = before ++ result ++ after /\
    allWhite before /\ allWhite after /\ trimmed result.
Proof.
  apply (executeAppleScript_returns_trimmed_output
           (Host.always 0 (lit "Hello World" ++ [LF]) [])
           (lit "return 1") constructor).
  reflexivity.
Defined.

(** X7 on three hosts: every command fails; only the System Events probe
    succeeds; both probes succeed. *)
Lemma checkPermissions_outcomes_witness :
  (exists st',
      checkPermissions (Host.always 1 [] []) constructor =
      (Thrown (newError (lit "System Events not accessible")), st') /\
      spawned st' = [] ++ [systemEventsProbe]) /\
  (exists st',
      checkPermissions
        (fun earlier command timeout =>
           match earlier with
           | [] => Host.always 0 [] [] earlier command timeout
           | _ :: _ => Host.always 1 [] [] earlier command timeout
           end) constructor =
      (Thrown (newError
                 (lit "Contacts app not accessible - permission not granted")),
       st') /\
      spawned st' = [] ++ [systemEventsProbe; contactsProbe]) /\
  checkPermissions (Host.addressBook Host.fiveNames) constructor =
  (Returned tt,
   withSpawned (withSpawned constructor systemEventsProbe) contactsProbe).
Proof.
  split; [|split].
  - apply (proj1 (checkPermissions_outcomes (Host.always 1 [] [])
                    constructor)).
    discriminate.
  - apply (proj1 (proj2 (checkPermissions_outcomes
                           (fun earlier command timeout =>
                              match earlier with
                              | [] => Host.always 0 [] [] earlier command
                                        timeout
                              | _ :: _ => Host.always 1 [] [] earlier command
                                            timeout
                              end) constructor)));
      [reflexivity|discriminate].
  - apply (proj2 (proj2 (checkPermissions_outcomes
                           (Host.addressBook Host.fiveNames) constructor)));
      vm_compute; reflexivity.
Defined.

(** ** What reaches the caller of a tool *)

Lemma neverThrows_ret {A} (a : A) : neverThrows (ret a).
Proof. intros st. now exists a, st. Qed.

Lemma neverThrows_consoleError (line : jsstring) :
  neverThrows (consoleError line).
Proof. intros st. eexists. eexists. reflexivity. Qed.

Lemma neverThrows_bind {A B} (m : M A) (k : A -> M B) :
  neverThrows m -> (forall a, neverThrows (k a)) -> neverThrows (bind m k).
Proof.
  intros Hm Hk st. destruct (Hm st) as (a & st' & E).
  destruct (Hk a st') as (b & st'' & E').
  exists b, st''. now rewrite (bind_returned m k st a st' E).
Qed.

(** A handler that returns makes the whole [try] return. *)
Lemma neverThrows_tryM {A} (body : M A) (handler : error -> M A) :
  (forall e, neverThrows (handler e)) -> neverThrows (tryM body handler).
Proof.
  intros Hh st. unfold tryM.
  destruct (body st) as [[a|e] st']; [now exists a, st'|apply Hh].
Qed.

Ltac returns_step :=
  match goal with
  | |- neverThrows (ret _) => apply neverThrows_ret
  | |- neverThrows (consoleError _) => apply neverThrows_consoleError
  | |- neverThrows (tryM _ _) => apply neverThrows_tryM; intros ?
  | |- neverThrows (bind _ _) => apply neverThrows_bind; [|intros ?]
  | |- neverThrows (let _ := _ in _) => cbv zeta
  end.

Section Callers.

Variable osascript : list (jsstring * Z) -> jsstring -> Z -> procExit.
Variable showParseInt : jsstring -> jsstring.
Variable JSON_stringify : list formattedContact -> jsstring.

(** X8. No tool call throws past the request handler: for every request,
    on every host and instance, [handleRequest] returns a text.  For a
    tool name it does not know the text is the error text and hint around
    [Unknown tool:] and the name, and nothing is spawned. *)
Theorem handleRequest_never_throws :
  (forall req,
      neverThrows (handleRequest osascript showParseInt JSON_stringify req)) /\
  (forall toolName st,
      handleRequest osascript showParseInt JSON_stringify
        (unknown_tool toolName) st =
      (Returned
         (lit "Error accessing contacts: " ++ lit "Unknown tool: "
            ++ toolName ++ [LF; LF; 55357%N; 56481%N]
            ++ lit " Try using the 'check_permissions' tool first to diagnose permission issues. You may need to grant Contacts and Automation permissions to Claude Desktop or Terminal in System Preferences."),
       st)).
Proof.
  split.
  - intros req. unfold handleRequest. repeat returns_step.
  - intros toolName st. unfold handleRequest, tryM, throw, ret.
    cbn [message newError]. now rewrite <- app_assoc.
Qed.

(** X9. [getContactCount], which reads nothing from its argument, and
    [checkPermissionsAndReport] never throw, called directly as the test
    suite calls them: they return a text on every host, whether the scripts
    succeed or fail.  [getContactNames] returns a text on every host when
    it is given an arguments object, with a limit or without; given no
    arguments object it throws a type error before it writes to the console
    or spawns anything. *)
Theorem diagnostics_never_throw :
  neverThrows (getContactCount osascript showParseInt) /\
  neverThrows (checkPermissionsAndReport osascript) /\
  (forall limit,
      neverThrows (getContactNames_called osascript (Some limit))) /\
  (forall st,
      getContactNames_called osascript None st =
      (Thrown (newError
                 (lit "Cannot read properties of undefined (reading 'limit')")),
       st)).
Proof.
  split; [|split; [|split; [intros limit|intros st; reflexivity]]];
    [unfold getContactCount|unfold checkPermissionsAndReport
    |cbn [getContactNames_called]; unfold getContactNames];
    repeat returns_step.
Qed.

(** The tools that open with [await this.checkPermissions()] outside any
    [try]. *)
Lemma probe_failure_propagates {A} (rest : M A) (st st1 : server) (e : error) :
  checkPermissions osascript st = (Thrown e, st1) ->
  bind (checkPermissions osascript) (fun _ => rest) st = (Thrown e, st1).
Proof. apply bind_thrown. Qed.

(** X10. When the System Events probe does not exit with 0,
    [searchContacts], [getContactByName] and [testContactProcessing] throw
    [System Events not accessible] after that one command, and the request
    handler turns it, for [search_contacts], into the text [Error accessing
    contacts: System Events not accessible] followed by the hint. *)
Theorem probe_failure_reaches_the_caller (st : server) :
  exit_status (osascript (spawned st)
                 (fst systemEventsProbe) (snd systemEventsProbe))
  <> StatusCode 0 ->
  exists st',
    spawned st' = spawned st ++ [systemEventsProbe] /\
    (forall query,
        searchContacts osascript query st =
        (Thrown (newError (lit "System Events not accessible")), st')) /\
    (forall name exact_match,
        getContactByName osascript name exact_match st =
        (Thrown (newError (lit "System Events not accessible")), st')) /\
    (forall sample_size,
        testContactProcessing osascript sample_size st =
        (Thrown (newError (lit "System Events not accessible")), st')) /\
    (forall query,
        handleRequest osascript showParseInt JSON_stringify
          (search_contacts query) st =
        (Returned
           (lit "Error accessing contacts: System Events not accessible"
              ++ [LF; LF; 55357%N; 56481%N]
              ++ lit " Try using the 'check_permissions' tool first to diagnose permission issues. You may need to grant Contacts and Automation permissions to Claude Desktop or Terminal in System Preferences."),
         st')).
Proof.
  intros H.
  destruct (checkPermissions_first_probe_fails osascript st H)
    as (st' & Hcheck & Hsp).
  exists st'. split; [exact Hsp|].
  assert (Hsearch : forall query,
             searchContacts osascript query st =
             (Thrown (newError (lit "System Events not accessible")), st'))
    by (intros query; apply probe_failure_propagates, Hcheck).
  split; [exact Hsearch|].
  split; [intros; apply probe_failure_propagates, Hcheck|].
  split; [intros; apply probe_failure_propagates, Hcheck|].
  intros query. unfold handleRequest.
  erewrite tryM_thrown; [|apply Hsearch]. reflexivity.
Qed.

End Callers.

(** X10 on a host where every command exits with status 1. *)
Lemma probe_failure_reaches_the_caller_witness :
  exists st',
    spawned st' = [] ++ [systemEventsProbe] /\
    (forall query,
        searchContacts (Host.always 1 [] []) query constructor =
        (Thrown (newError (lit "System Events not accessible")), st')) /\
    (forall name exact_match,
        getContactByName (Host.always 1 [] []) name exact_match constructor =
        (Thrown (newError (lit "System Events not accessible")), st')) /\
    (forall sample_size,
        testContactProcessing (Host.always 1 [] []) sample_size constructor =
        (Thrown (newError (lit "System Events not accessible")), st')) /\
    (forall query,
        handleRequest (Host.always 1 [] []) Host.noParseInt Host.noJSON
          (search_contacts query) constructor =
        (Returned
           (lit "Error accessing contacts: System Events not accessible"
              ++ [LF; LF; 55357%N; 56481%N]
              ++ lit " Try using the 'check_permissions' tool first to diagnose permission issues. You may need to grant Contacts and Automation permissions to Claude Desktop or Terminal in System Preferences."),
         st')).
Proof.
  apply (probe_failure_reaches_the_caller (Host.always 1 [] [])
           Host.noParseInt Host.noJSON constructor).
  discriminate.
Defined.

(** ** The gated fetches and [getAllContacts] *)

Section Fetching.

Variable osascript : list (jsstring * Z) -> jsstring -> Z -> procExit.
Variable JSON_stringify : list formattedContact -> jsstring.

Lemma gatedFetch_with_flag_on (unlimited : bool) (st : server) :
  permissionsChecked st = true ->
  exists k,
    gatedFetch osascript unlimited st =
    bind (executeAppleScript osascript (fetchScript unlimited)) k st /\
    forall result st1,
      k result st1 =
      if negb (truthy result)
      then (Returned [],
            withConsole st1 [lit "No result returned from AppleScript"])
      else (Returned (parseText result),
            withConsole st1
              [lit "Successfully parsed "
                 ++ showNum (Z.of_nat (length (parseText result)))
                 ++ (if unlimited
                     then lit " contacts from AppleScript (unlimited)"
                     else lit " contacts from AppleScript")]).
Proof.
  intros Hflag.
  destruct unlimited; cbn [gatedFetch fetchScript];
    [unfold getContactsDataUnlimited|unfold getContactsData];
    rewrite (bind_returned getPermissionsChecked _ st
               (permissionsChecked st) st eq_refl);
    cbv beta; rewrite Hflag; cbn [negb];
    rewrite (bind_returned (ret tt) _ st tt st eq_refl); cbv beta;
    eexists; (split; [reflexivity|]);
    intros result st1; cbv beta;
    destruct (negb (truthy result)); reflexivity.
Qed.

(** X11. With the flag on, a gated fetch is the parser applied to the
    trimmed output of its script: when the script exits with 0 the fetch
    returns the records parsed from the standard output without the white
    space at its ends (none when that is empty), after that one command;
    when the script exits with another status the fetch throws the
    exit-code error of [executeAppleScript]. *)
Theorem gatedFetch_returns_parsed_output (unlimited : bool) (st : server) :
  permissionsChecked st = true ->
  let r := osascript (spawned st) (commandLine (fetchScript unlimited))
             (timeoutFor (fetchScript unlimited)) in
  (exit_status r = StatusCode 0 ->
   exists st',
     gatedFetch osascript unlimited st =
     (Returned (parseText (trim (exit_stdout r))), st') /\
     spawned st' =
     spawned st ++ [(commandLine (fetchScript unlimited),
                     timeoutFor (fetchScript unlimited))]) /\
  (exit_status r <> StatusCode 0 ->
   exists st',
     gatedFetch osascript unlimited st =
     (Thrown (newError (lit "Failed to execute AppleScript (exit code: "
                          ++ showStatus (exit_status r) ++ lit ")")),
      st')).
Proof.
  intros Hflag r.
  destruct (gatedFetch_with_flag_on unlimited st Hflag) as (k & -> & Hk).
  split.
  - intros Hok.
    rewrite (bind_returned _ k st _ _
               (executeAppleScript_ok osascript _ st Hok)).
    rewrite Hk. fold r.
    destruct (trim (exit_stdout r)) as [|c rest]; cbn [truthy negb];
      eexists; split; reflexivity.
  - intros Hfail.
    destruct (executeAppleScript_failed osascript _ st Hfail)
      as (st' & E & _).
    exists st'. now rewrite (bind_thrown _ k st _ _ E).
Qed.

Lemma slice0_length {A} (limit : Z) (l : list A) :
  Z.of_nat (length (slice0 limit l)) =
  if (limit <? 0)%Z
  then Z.max (Z.of_nat (length l) + limit) 0
  else Z.min limit (Z.of_nat (length l)).
Proof.
  unfold slice0. destruct (Z.ltb_spec limit 0);
    rewrite length_firstn; lia.
Qed.

Lemma slice0_prefix {A} (limit : Z) (l : list A) :
  slice0 limit l = firstn (length (slice0 limit l)) l.
Proof.
  unfold slice0. destruct (limit <? 0)%Z;
    rewrite length_firstn, <- firstn_firstn, firstn_all; reflexivity.
Qed.

Lemma formatContact_no_empty_marks (c : contact) :
  fmt_name (formatContact c) <> [] /\
  fmt_organization (formatContact c) <> Some [] /\
  fmt_notes (formatContact c) <> Some [] /\
  fmt_birthday (formatContact c) <> Some [].
Proof.
  unfold formatContact, orNull. cbn.
  destruct (name c), (organization c), (note c), (birthday c);
    cbn; repeat split; discriminate.
Qed.

Lemma toInteger_cuts_the_fraction (q : jsnumber) :
  (QArith_base.Qle (ofInteger 0) q ->
   QArith_base.Qle (ofInteger (toInteger q)) q /\
   QArith_base.Qlt q (ofInteger (toInteger q + 1))) /\
  (QArith_base.Qlt q (ofInteger 0) ->
   QArith_base.Qlt (ofInteger (toInteger q - 1)) q /\
   QArith_base.Qle q (ofInteger (toInteger q))).
Proof.
  unfold toInteger, ofInteger.
  destruct (QArith_base.Qle_bool (QArith_base.inject_Z 0) q) eqn:E.
  - apply QArith_base.Qle_bool_iff in E. split.
    + intros _. split; [apply Qround.Qfloor_le|apply Qround.Qlt_floor].
    + intros H. exfalso. exact (QArith_base.Qlt_not_le _ _ H E).
  - split.
    + intros H. apply QArith_base.Qle_bool_iff in H. congruence.
    + intros _. split; [apply Qround.Qceiling_lt|apply Qround.Qle_ceiling].
Qed.

Lemma exceeds_spec (n : nat) (limit : jsnumber) :
  exceeds n limit = true <->
  QArith_base.Qlt limit (ofInteger (Z.of_nat n)).
Proof.
  unfold exceeds. rewrite negb_true_iff. split.
  - intros E. apply QArith_base.Qnot_le_lt. intros H.
    apply QArith_base.Qle_bool_iff in H. congruence.
  - intros H.
    destruct (QArith_base.Qle_bool (ofInteger (Z.of_nat n)) limit) eqn:E;
      [|reflexivity].
    apply QArith_base.Qle_bool_iff in E.
    exfalso. exact (QArith_base.Qlt_not_le _ _ H E).
Qed.

Lemma numberOr_not_zero (limit : option jsnumber) :
  ~ QArith_base.Qeq (numberOr limit (ofInteger 100)) (ofInteger 0).
Proof.
  unfold numberOr. destruct limit as [q|]; [|discriminate].
  destruct (QArith_base.Qeq_bool q (ofInteger 0)) eqn:E; [discriminate|].
  now apply QArith_base.Qeq_bool_neq.
Qed.

(** X12. Given an arguments object, [getAllContacts] answers with the
    formatted records of a prefix of what the gated fetch returned, under a
    cap that is the limit, or 100 when the limit is absent or 0.  The cap
    is any number: [slice] uses its integer part, the fraction cut off
    toward zero.  When that integer is not negative the number of records
    is the smaller of it and the number fetched; when it is negative that
    many records are dropped from the end.  The text gives the number of
    records, names the total exactly when the total exceeds the cap itself
    (so a cap of one half gives no record and names the total), and ends
    with their JSON.  No formatted record has an empty name, nor an empty
    string for its organization, notes or birthday.  When the fetch
    throws, so does [getAllContacts]. *)
Theorem getAllContacts_reports_the_limited_list
    (limit : option jsnumber) (unlimited : bool) (st st' : server) :
  (forall contacts,
      gatedFetch osascript unlimited st = (Returned contacts, st') ->
      let cap := numberOr limit (ofInteger 100) in
      let total := Z.of_nat (length contacts) in
      exists results whole,
        getAllContacts osascript JSON_stringify limit unlimited st =
        (Returned
           (lit "Retrieved " ++ showNum (Z.of_nat (length results))
              ++ lit " contacts"
              ++ (if exceeds (length contacts) cap
                  then lit " (limited from " ++ showNum total ++ lit " total)"
                  else [])
              ++ lit ":" ++ [LF; LF] ++ JSON_stringify results),
         st') /\
        results = map formatContact (firstn (length results) contacts) /\
        ~ QArith_base.Qeq cap (ofInteger 0) /\
        (QArith_base.Qle (ofInteger 0) cap ->
         QArith_base.Qle (ofInteger whole) cap /\
         QArith_base.Qlt cap (ofInteger (whole + 1))) /\
        (QArith_base.Qlt cap (ofInteger 0) ->
         QArith_base.Qlt (ofInteger (whole - 1)) cap /\
         QArith_base.Qle cap (ofInteger whole)) /\
        Z.of_nat (length results) =
        (if (whole <? 0)%Z then Z.max (total + whole) 0
         else Z.min whole total) /\
        (exceeds (length contacts) cap = true <->
         QArith_base.Qlt cap (ofInteger total)) /\
        Forall (fun f => fmt_name f <> [] /\ fmt_organization f <> Some [] /\
                         fmt_notes f <> Some [] /\ fmt_birthday f <> Some [])
               results) /\
  (forall e,
      gatedFetch osascript unlimited st = (Thrown e, st') ->
      getAllContacts osascript JSON_stringify limit unlimited st =
      (Thrown e, st')).
Proof.
  split.
  - intros contacts Hfetch cap total.
    exists (map formatContact (sliceTo cap contacts)), (toInteger cap).
    split; [|split; [|split; [|split; [|split; [|split; [|split]]]]]].
    + unfold getAllContacts.
      rewrite (bind_returned _ _ st contacts st' Hfetch). reflexivity.
    + rewrite length_map. f_equal. apply slice0_prefix.
    + apply numberOr_not_zero.
    + apply toInteger_cuts_the_fraction.
    + apply toInteger_cuts_the_fraction.
    + rewrite length_map. apply slice0_length.
    + apply exceeds_spec.
    + apply Forall_forall. intros f Hf. apply in_map_iff in Hf as [c [<- _]].
      apply formatContact_no_empty_marks.
  - intros e Hfetch. unfold getAllContacts.
    now rewrite (bind_thrown _ _ st e st' Hfetch).
Qed.

End Fetching.

(** X11 on an instance with the flag on: a host whose commands all print
    two records and a newline, and a host whose commands all exit with
    status 1. *)
Lemma gatedFetch_returns_parsed_output_witness :
  (exists st',
      gatedFetch
        (Host.always 0 (join LF [Host.annRecord; Host.bobRecord] ++ [LF]) [])
        false (withPermissionsChecked constructor true) =
      (Returned
         (parseText (trim (join LF [Host.annRecord; Host.bobRecord] ++ [LF]))),
       st') /\
      spawned st' =
      [] ++ [(commandLine (fetchScript false),
              timeoutFor (fetchScript false))]) /\
  (exists st',
      gatedFetch (Host.always 1 [] []) true
        (withPermissionsChecked constructor true) =
      (Thrown (newError (lit "Failed to execute AppleScript (exit code: "
                           ++ showStatus (StatusCode 1) ++ lit ")")),
       st')).
Proof.
  split.
  - apply (proj1 (gatedFetch_returns_parsed_output
                    (Host.always 0
                       (join LF [Host.annRecord; Host.bobRecord] ++ [LF]) [])
                    false (withPermissionsChecked constructor true)
                    eq_refl)).
    reflexivity.
  - apply (proj2 (gatedFetch_returns_parsed_output
                    (Host.always 1 [] []) true
                    (withPermissionsChecked constructor true) eq_refl)).
    discriminate.
Defined.

(** X12 on the same host, with a limit of one and a half on the two
    records fetched. *)
Lemma getAllContacts_reports_the_limited_list_witness :
  let host :=
    Host.always 0 (join LF [Host.annRecord; Host.bobRecord] ++ [LF]) [] in
  let st := withPermissionsChecked constructor true in
  let st' := snd (gatedFetch host false st) in
  let contacts := parseText (join LF [Host.annRecord; Host.bobRecord]) in
  exists results whole,
    getAllContacts host Host.noJSON (Some (QArith_base.Qmake 3 2)) false st =
    (Returned
       (lit "Retrieved " ++ showNum (Z.of_nat (length results))
          ++ lit " contacts"
          ++ lit " (limited from " ++ showNum 2 ++ lit " total)"
          ++ lit ":" ++ [LF; LF] ++ Host.noJSON results),
     st') /\
    results = map formatContact (firstn (length results) contacts) /\
    QArith_base.Qle (ofInteger whole) (QArith_base.Qmake 3 2) /\
    QArith_base.Qlt (QArith_base.Qmake 3 2) (ofInteger (whole + 1)) /\
    Z.of_nat (length results) =
    (if (whole <? 0)%Z then Z.max (2 + whole) 0 else Z.min whole 2).
Proof.
  intros host st st' contacts.
  destruct (proj1 (getAllContacts_reports_the_limited_list
                     host Host.noJSON (Some (QArith_base.Qmake 3 2)) false
                     st st')
              contacts ltac:(vm_compute; reflexivity))
    as (results & whole & Htext & Hprefix & _ & Hpos & _ & Hlen & _).
  exists results, whole.
  split; [exact Htext|]. split; [exact Hprefix|].
  destruct (Hpos ltac:(vm_compute; discriminate)) as [Hlow Hhigh].
  split; [exact Hlow|]. split; [exact Hhigh|exact Hlen].
Defined.

(** ** How many commands a tool call spawns *)

Lemma spawnsAtMost_le {A} (n n' : nat) (m : M A) :
  spawnsAtMost n m -> n <= n' -> spawnsAtMost n' m.
Proof.
  intros H Hle st. destruct (H st) as (extra & E & Hlen).
  exists extra. split; [exact E|lia].
Qed.

Lemma spawnsAtMost_keeps {A} (m : M A) :
  preserves spawned m -> spawnsAtMost 0 m.
Proof.
  intros H st. exists []. rewrite H, app_nil_r. now split.
Qed.

Lemma spawnsAtMost_bind {A B} (n k : nat) (m : M A) (f : A -> M B) :
  spawnsAtMost n m -> (forall a, spawnsAtMost k (f a)) ->
  spawnsAtMost (n + k) (bind m f).
Proof.
  intros Hm Hf st. unfold bind. destruct (Hm st) as (extra & E & Hlen).
  destruct (m st) as [[a|e] st1]; cbn [snd] in *.
  - destruct (Hf a st1) as (extra' & E' & Hlen').
    exists (extra ++ extra'). rewrite E', E, <- app_assoc, length_app.
    split; [reflexivity|lia].
  - exists extra. split; [exact E|lia].
Qed.

Lemma spawnsAtMost_tryM {A} (n k : nat) (body : M A) (handler : error -> M A) :
  spawnsAtMost n body -> (forall e, spawnsAtMost k (handler e)) ->
  spawnsAtMost (n + k) (tryM body handler).
Proof.
  intros Hb Hh st. unfold tryM. destruct (Hb st) as (extra & E & Hlen).
  destruct (body st) as [[a|e] st1]; cbn [snd] in *.
  - exists extra. split; [exact E|lia].
  - destruct (Hh e st1) as (extra' & E' & Hlen').
    exists (extra ++ extra'). rewrite E', E, <- app_assoc, length_app.
    split; [reflexivity|lia].
Qed.

Lemma spawnsAtMost_if {A} (n k : nat) (b : bool) (m m' : M A) :
  spawnsAtMost n m -> spawnsAtMost k m' ->
  spawnsAtMost (Nat.max n k) (if b then m else m').
Proof.
  intros H H'. destruct b; eapply spawnsAtMost_le; eauto; lia.
Qed.

Lemma spawnsAtMost_executeAppleScript osascript (script : jsstring) :
  spawnsAtMost 1 (executeAppleScript osascript script).
Proof.
  intros st. eexists. split; [apply executeAppleScript_spawns|].
  reflexivity.
Qed.

(** Bound a method body by adding up along its binds and handlers. *)
Ltac count_step :=
  match goal with
  | |- spawnsAtMost _ (executeAppleScript _ _) =>
      apply spawnsAtMost_executeAppleScript
  | |- spawnsAtMost _ (bind _ _) => eapply spawnsAtMost_bind; [|intros ?]
  | |- spawnsAtMost _ (tryM _ _) => eapply spawnsAtMost_tryM; [|intros ?]
  | |- spawnsAtMost _ (if _ then _ else _) => eapply spawnsAtMost_if
  | |- spawnsAtMost _ (let _ := _ in _) => cbv zeta
  | |- spawnsAtMost _ _ => apply spawnsAtMost_keeps; solve [keeps_spawned]
  end.

Ltac count_spawns :=
  eapply spawnsAtMost_le; [repeat count_step|cbn; lia].

Section Counting.

Variable osascript : list (jsstring * Z) -> jsstring -> Z -> procExit.
Variable showParseInt : jsstring -> jsstring.
Variable JSON_stringify : list formattedContact -> jsstring.

Lemma checkPermissions_spawnsAtMost :
  spawnsAtMost 2 (checkPermissions osascript).
Proof. unfold checkPermissions. count_spawns. Qed.

Lemma getContactsData_spawnsAtMost :
  spawnsAtMost 3 (getContactsData osascript).
Proof.
  unfold getContactsData. eapply spawnsAtMost_le.
  - eapply spawnsAtMost_bind; [apply spawnsAtMost_keeps; keeps_spawned|].
    intros checked. eapply spawnsAtMost_bind.
    + eapply spawnsAtMost_if; [|apply spawnsAtMost_keeps; keeps_spawned].
      eapply spawnsAtMost_tryM; [|intros e; apply spawnsAtMost_keeps;
                                   keeps_spawned].
      eapply spawnsAtMost_bind; [apply checkPermissions_spawnsAtMost|].
      intros _. apply spawnsAtMost_keeps. keeps_spawned.
    + intros _. repeat count_step.
  - cbn. lia.
Qed.

Lemma getContactsDataUnlimited_spawnsAtMost :
  spawnsAtMost 3 (getContactsDataUnlimited osascript).
Proof.
  unfold getContactsDataUnlimited. eapply spawnsAtMost_le.
  - eapply spawnsAtMost_bind; [apply spawnsAtMost_keeps; keeps_spawned|].
    intros checked. eapply spawnsAtMost_bind.
    + eapply spawnsAtMost_if; [|apply spawnsAtMost_keeps; keeps_spawned].
      eapply spawnsAtMost_tryM; [|intros e; apply spawnsAtMost_keeps;
                                   keeps_spawned].
      eapply spawnsAtMost_bind; [apply checkPermissions_spawnsAtMost|].
      intros _. apply spawnsAtMost_keeps. keeps_spawned.
    + intros _. repeat count_step.
  - cbn. lia.
Qed.

Lemma after_probe_spawnsAtMost {A} (rest : M A) :
  spawnsAtMost 1 rest ->
  spawnsAtMost 3 (bind (checkPermissions osascript) (fun _ => rest)).
Proof.
  intros H. change 3 with (2 + 1).
  apply spawnsAtMost_bind; [apply checkPermissions_spawnsAtMost|now intros _].
Qed.

(** X13. A tool call hands at most three commands to the shell: for every
    request, host and instance, the commands of [handleRequest] are the
    earlier ones followed by at most three new ones (at most two probes and
    one script). *)
Theorem handleRequest_spawns_at_most_three (req : request) :
  spawnsAtMost 3 (handleRequest osascript showParseInt JSON_stringify req).
Proof.
  unfold handleRequest. change 3 with (3 + 0).
  apply spawnsAtMost_tryM;
    [|intros e; apply spawnsAtMost_keeps; keeps_spawned].
  destruct req.
  - unfold searchContacts. apply after_probe_spawnsAtMost. count_spawns.
  - unfold getContactByName. apply after_probe_spawnsAtMost. count_spawns.
  - unfold getAllContacts. change 3 with (3 + 0).
    apply spawnsAtMost_bind;
      [|intros contacts; apply spawnsAtMost_keeps; keeps_spawned].
    destruct unlimited; cbn [gatedFetch];
      [apply getContactsDataUnlimited_spawnsAtMost
      |apply getContactsData_spawnsAtMost].
  - unfold checkPermissionsAndReport. change 3 with (3 + 0).
    apply spawnsAtMost_tryM;
      [|intros e; apply spawnsAtMost_keeps; keeps_spawned].
    apply after_probe_spawnsAtMost. count_spawns.
  - unfold testContactProcessing. apply after_probe_spawnsAtMost.
    count_spawns.
  - unfold getContactCount. count_spawns.
  - unfold getContactNames. count_spawns.
  - eapply spawnsAtMost_le; [apply spawnsAtMost_keeps; keeps_spawned|lia].
Qed.

End Counting.

(** ** Which tools probe, and when *)

Lemma spawnsFirst_bind {A B} (n : nat) command (m : M A) (k : A -> M B) :
  spawnsFirst command m -> (forall a, spawnsAtMost n (k a)) ->
  spawnsFirst command (bind m k).
Proof.
  intros Hm Hk st. unfold bind. destruct (Hm st) as (rest & E).
  destruct (m st) as [[a|e] st1]; cbn [snd] in *; [|now exists rest].
  destruct (Hk a st1) as (extra & E' & _).
  exists (rest ++ extra). rewrite E', E, <- app_assoc. reflexivity.
Qed.

Lemma spawnsFirst_tryM {A} (n : nat) command
    (body : M A) (handler : error -> M A) :
  spawnsFirst command body -> (forall e, spawnsAtMost n (handler e)) ->
  spawnsFirst command (tryM body handler).
Proof.
  intros Hb Hh st. unfold tryM. destruct (Hb st) as (rest & E).
  destruct (body st) as [[a|e] st1]; cbn [snd] in *; [now exists rest|].
  destruct (Hh e st1) as (extra & E' & _).
  exists (rest ++ extra). rewrite E', E, <- app_assoc. reflexivity.
Qed.

Section Probing.

Variable osascript : list (jsstring * Z) -> jsstring -> Z -> procExit.
Variable showParseInt : jsstring -> jsstring.

Lemma checkPermissions_spawnsFirst :
  spawnsFirst systemEventsProbe (checkPermissions osascript).
Proof.
  unfold checkPermissions.
  eapply (spawnsFirst_bind 1).
  - eapply (spawnsFirst_tryM 0).
    + eapply (spawnsFirst_bind 0).
      * intros st. exists []. apply executeAppleScript_spawns.
      * intros result. apply spawnsAtMost_keeps. keeps_spawned.
    + intros e. apply spawnsAtMost_keeps. keeps_spawned.
  - intros _. count_spawns.
Qed.

Lemma after_probe_spawnsFirst {A} (rest : M A) :
  spawnsAtMost 1 rest ->
  spawnsFirst systemEventsProbe
    (bind (checkPermissions osascript) (fun _ => rest)).
Proof.
  intros H. apply (spawnsFirst_bind 1);
    [apply checkPermissions_spawnsFirst|now intros _].
Qed.

(** X14. The tools other than [get_all_contacts] do not use the flag.
    [searchContacts], [getContactByName], [testContactProcessing] and
    [checkPermissionsAndReport] run the System Events probe as their first
    command on every call, whether the flag is on or off, and leave the
    flag as it was; [getContactCount] runs no probe, its count script being
    the one command it spawns. *)
Theorem ungated_tools_ignore_the_flag :
  (forall query,
      spawnsFirst systemEventsProbe (searchContacts osascript query) /\
      preserves permissionsChecked (searchContacts osascript query)) /\
  (forall name exact_match,
      spawnsFirst systemEventsProbe
        (getContactByName osascript name exact_match) /\
      preserves permissionsChecked
        (getContactByName osascript name exact_match)) /\
  (forall sample_size,
      spawnsFirst systemEventsProbe
        (testContactProcessing osascript sample_size) /\
      preserves permissionsChecked
        (testContactProcessing osascript sample_size)) /\
  (spawnsFirst systemEventsProbe (checkPermissionsAndReport osascript) /\
   preserves permissionsChecked (checkPermissionsAndReport osascript)) /\
  (forall st,
      spawned (snd (getContactCount osascript showParseInt st)) =
      spawned st ++ [(commandLine getContactCount_countScript, 30000%Z)] /\
      permissionsChecked (snd (getContactCount osascript showParseInt st)) =
      permissionsChecked st).
Proof.
  split; [|split; [|split; [|split]]].
  - intros query. split; [|apply searchContacts_keeps_flag].
    unfold searchContacts. apply after_probe_spawnsFirst. count_spawns.
  - intros name exact_match. split; [|apply getContactByName_keeps_flag].
    unfold getContactByName. apply after_probe_spawnsFirst. count_spawns.
  - intros sample_size. split; [|apply testContactProcessing_keeps_flag].
    unfold testContactProcessing. apply after_probe_spawnsFirst.
    count_spawns.
  - split; [|apply checkPermissionsAndReport_keeps_flag].
    unfold checkPermissionsAndReport. apply (spawnsFirst_tryM 0).
    + apply after_probe_spawnsFirst. count_spawns.
    + intros e. apply spawnsAtMost_keeps. keeps_spawned.
  - intros st. split; [|apply getContactCount_keeps_flag].
    unfold getContactCount.
    match goal with
    | |- context [bind (consoleError ?line) ?k st] =>
        rewrite (bind_returned (consoleError line) k st tt
                   (withConsole st [line]) eq_refl)
    end.
    unfold tryM, bind.
    match goal with
    | |- context [executeAppleScript osascript ?script ?st1] =>
        pose proof (executeAppleScript_run osascript script st1) as H
    end.
    cbv zeta in H. rewrite H.
    destruct (exit_status _) as [| |[| |]]; reflexivity.
Qed.

End Probing.

(** ** The two tiers of timeout *)

(** X15. The timeout of a script is 120 seconds exactly when its text
    holds [repeat with aPerson in people], and 30 seconds otherwise.  The
    two fetch scripts and the sample script of [testContactProcessing],
    for every sample size, run under 120 seconds; the two probes, the count
    scripts and the names script run under 30. *)
Theorem timeout_has_two_tiers :
  (forall script,
      (timeoutFor script = 120000%Z <-> isSubstring bulkMarker script) /\
      (timeoutFor script = 30000%Z <-> ~ isSubstring bulkMarker script)) /\
  (forall unlimited, timeoutFor (fetchScript unlimited) = 120000%Z) /\
  (forall sampleSize,
      timeoutFor (testContactProcessing_testScript sampleSize) = 120000%Z) /\
  Forall (fun script => timeoutFor script = 30000%Z)
    [checkPermissions_testScript; contactsTestScript;
     checkPermissionsAndReport_countScript; getContactCount_countScript;
     namesScript].
Proof.
  split; [|split; [|split]].
  - intros script. unfold timeoutFor. fold bulkMarker.
    rewrite <- includes_spec.
    destruct (includes script bulkMarker); split; split;
      congruence || discriminate.
  - intros [|]; vm_compute; reflexivity.
  - intros sampleSize. unfold timeoutFor.
    assert (E : testContactProcessing_testScript sampleSize =
                firstn 122 (testContactProcessing_testScript 0)
                  ++ showNum sampleSize
                  ++ skipn 123 (testContactProcessing_testScript 0)).
    { unfold testContactProcessing_testScript.
      generalize (showNum sampleSize). intros n. vm_compute. reflexivity. }
    rewrite E.
    assert (H : includes (skipn 123 (testContactProcessing_testScript 0))
                  (lit "repeat with aPerson in people") = true)
      by (vm_compute; reflexivity).
    assert (Hin : includes
                    (firstn 122 (testContactProcessing_testScript 0)
                       ++ showNum sampleSize
                       ++ skipn 123 (testContactProcessing_testScript 0))
                    (lit "repeat with aPerson in people") = true).
    { apply includes_spec. apply includes_spec in H as (b & a & H).
      exists (firstn 122 (testContactProcessing_testScript 0)
                ++ showNum sampleSize ++ b), a.
      rewrite H at 1. now rewrite <- !app_assoc. }
    now rewrite Hin.
  - repeat constructor; vm_compute; reflexivity.
Qed.

(** ** The birthday window in milliseconds *)

Lemma ceilDiv_window (a b n : Z) :
  (0 < b)%Z ->
  (0 <= ceilDiv a b <= n)%Z <-> (- b < a <= n * b)%Z.
Proof.
  intros Hb. unfold ceilDiv.
  pose proof (Z.div_mod (- a) b ltac:(lia)) as Hdm.
  pose proof (Z.mod_pos_bound (- a) b Hb) as Hmod.
  split; intros [H1 H2]; split; nia.
Qed.

(** X16. [isUpcomingBirthday] answers true exactly when the text is not
    empty, the window is not 0, the text parses, and the next birthday
    (this year's, or next year's when this year's lies before now) is less
    than a day behind now and at most [windowDays] whole days ahead of it.
    No negative window is ever met. *)
Theorem isUpcomingBirthday_window
    (k : clock) (birthdayText : jsstring) (windowDays : Z) :
  (isUpcomingBirthday k birthdayText windowDays = true <->
   birthdayText <> [] /\ windowDays <> 0%Z /\
   exists birthDate,
     parseDate k birthdayText = Some birthDate /\
     (- msPerDay < nextBirthday k birthDate - now k
      <= windowDays * msPerDay)%Z) /\
  ((windowDays < 0)%Z ->
   isUpcomingBirthday k birthdayText windowDays = false).
Proof.
  assert (Hiff :
            isUpcomingBirthday k birthdayText windowDays = true <->
            birthdayText <> [] /\ windowDays <> 0%Z /\
            exists birthDate,
              parseDate k birthdayText = Some birthDate /\
              (- msPerDay < nextBirthday k birthDate - now k
               <= windowDays * msPerDay)%Z).
  { rewrite isUpcomingBirthday_true_iff.
    split; intros (Ht & Hw & d & Hd & H); (split; [exact Ht|]);
      (split; [exact Hw|]); exists d; (split; [exact Hd|]);
      apply (ceilDiv_window (nextBirthday k d - now k) msPerDay windowDays);
      try reflexivity; exact H. }
  split; [exact Hiff|].
  intros Hneg. apply not_true_is_false. rewrite Hiff.
  intros (_ & _ & d & _ & H). unfold msPerDay in H. lia.
Qed.

(** X16 at noon UTC on 15 June 2024: the birthday of 16 June is within a
    window of one day, and not within a window of minus one. *)
Lemma isUpcomingBirthday_window_witness :
  isUpcomingBirthday (Host.utcClock Host.noon_2024_06_15)
    (lit "1990-06-16") 1 = true /\
  isUpcomingBirthday (Host.utcClock Host.noon_2024_06_15)
    (lit "1990-06-16") (-1) = false.
Proof.
  split.
  - apply (proj1 (isUpcomingBirthday_window
                    (Host.utcClock Host.noon_2024_06_15)
                    (lit "1990-06-16") 1)).
    split; [discriminate|split; [discriminate|]].
    exists (Host.daysFromCivil 1990 6 16 * msPerDay)%Z.
    split; [vm_compute; reflexivity|].
    vm_compute. split; [reflexivity|discriminate].
  - apply (proj2 (isUpcomingBirthday_window
                    (Host.utcClock Host.noon_2024_06_15)
                    (lit "1990-06-16") (-1))).
    reflexivity.
Defined.

(** ** Names out of the interpreter's answer *)

Lemma splitRuns_piece (inRun : bool) (s p : jsstring) :
  In p (splitRuns inRun s) -> oneLine p.
Proof.
  unfold oneLine.
  revert inRun p. induction s as [|c r IH]; intros inRun p; cbn [splitRuns].
  - intros [<-|[]]. simpl. tauto.
  - destruct (N.eqb_spec c CR) as [->|Hcr]; cbn [orb].
    + destruct inRun; [apply IH|].
      intros [<-|H]; [simpl; tauto|eapply IH, H].
    + destruct (N.eqb_spec c LF) as [->|Hlf].
      * destruct inRun; [apply IH|].
        intros [<-|H]; [simpl; tauto|eapply IH, H].
      * destruct (splitRuns false r) as [|piece pieces] eqn:E.
        -- intros [<-|[]]. simpl. intuition congruence.
        -- intros [<-|H]; [|apply (IH false); rewrite E; now right].
           destruct (IH false piece ltac:(rewrite E; now left)) as [H1 H2].
           simpl. intuition congruence.
Qed.

Lemma splitRuns_oneLine (p : jsstring) :
  oneLine p -> splitRuns false p = [p].
Proof.
  induction p as [|c r IH]; intros [Hcr Hlf]; [reflexivity|].
  cbn [splitRuns].
  destruct (N.eqb_spec c CR) as [->|_]; [simpl in Hcr; tauto|].
  destruct (N.eqb_spec c LF) as [->|_]; [simpl in Hlf; tauto|].
  cbn [orb]. rewrite IH; [reflexivity|]. split; simpl in *; tauto.
Qed.

Lemma splitRuns_before_CR (p rest : jsstring) :
  oneLine p ->
  splitRuns false (p ++ CR :: rest) = p :: splitRuns true rest.
Proof.
  induction p as [|c r IH]; intros [Hcr Hlf]; [reflexivity|].
  cbn [app splitRuns].
  destruct (N.eqb_spec c CR) as [->|_]; [simpl in Hcr; tauto|].
  destruct (N.eqb_spec c LF) as [->|_]; [simpl in Hlf; tauto|].
  cbn [orb]. rewrite IH; [reflexivity|]. split; simpl in *; tauto.
Qed.

Lemma splitRuns_true_text (p rest : jsstring) :
  oneLine p -> p <> [] ->
  splitRuns true (p ++ rest) = splitRuns false (p ++ rest).
Proof.
  intros [Hcr Hlf] Hp. destruct p as [|c r]; [congruence|].
  cbn [app splitRuns].
  destruct (N.eqb_spec c CR) as [->|_]; [simpl in Hcr; tauto|].
  destruct (N.eqb_spec c LF) as [->|_]; [simpl in Hlf; tauto|].
  reflexivity.
Qed.

Lemma splitRuns_join (names : list jsstring) :
  names <> [] ->
  Forall (fun n => oneLine n /\ n <> []) names ->
  splitRuns false (join CR names) = names.
Proof.
  induction names as [|p rest IH]; intros Hne Hall; [congruence|].
  inversion Hall as [|? ? [Hp Hpne] Hrest]; subst.
  destruct rest as [|q rest'].
  - now apply splitRuns_oneLine.
  - change (join CR (p :: q :: rest'))
      with (p ++ CR :: join CR (q :: rest')).
    rewrite splitRuns_before_CR by exact Hp.
    inversion Hrest as [|? ? [Hq Hqne] _]; subst.
    assert (E : join CR (q :: rest') = q ++ match rest' with
                                            | [] => []
                                            | _ => CR :: join CR rest'
                                            end)
      by (destruct rest'; [now rewrite app_nil_r|reflexivity]).
    rewrite E, splitRuns_true_text, <- E by assumption.
    rewrite IH; [reflexivity|discriminate|exact Hrest].
Qed.

(** X17. The names the tools list are cut out of the interpreter's answer
    on runs of carriage returns and newlines: no piece of the split holds
    either character, and an answer made of non-blank one-line names joined
    by carriage returns, as AppleScript joins them, gives back exactly
    those names once the blank pieces are dropped. *)
Theorem names_survive_the_line_split :
  (forall (answer piece : jsstring),
      In piece (splitLines answer) -> oneLine piece) /\
  (forall names : list jsstring,
      Forall (fun n => oneLine n /\ nonBlank n) names ->
      filter (fun name => truthy (trim name)) (splitLines (join CR names)) =
      names).
Proof.
  split; [intros answer piece; apply splitRuns_piece|].
  intros names Hall. destruct names as [|p rest]; [reflexivity|].
  unfold splitLines. rewrite splitRuns_join; [|discriminate|].
  - apply forallb_filter_id. apply forallb_forall. intros n Hn.
    rewrite Forall_forall in Hall. now apply Hall.
  - eapply Forall_impl; [|exact Hall]. intros n [H1 H2].
    split; [exact H1|]. apply truthy_nonempty. now apply truthy_trim_true.
Qed.

(** X17 on three of the example names. *)
Lemma names_survive_the_line_split_witness :
  filter (fun name => truthy (trim name))
    (splitLines (join CR [lit "Ann Lee"; lit "Bob Ray"; lit "Cy Wu"])) =
  [lit "Ann Lee"; lit "Bob Ray"; lit "Cy Wu"].
Proof.
  apply (proj2 names_survive_the_line_split).
  repeat constructor; vm_compute; intuition discriminate.
Defined.

Lemma trimmed_nonBlank (s : jsstring) : s <> [] -> trimmed s -> nonBlank s.
Proof.
  destruct s as [|c r]; [congruence|]. intros _ [H _].
  unfold nonBlank. rewrite truthy_trim. simpl. unfold nonWhite at 1.
  now rewrite H.
Qed.

(** X18. Every name [searchContacts] takes out of an answer is non-blank.
    When the answer holds a comma the names are the trimmed pieces between
    commas, so none of them holds a comma or has white space at either end;
    when it holds none they are the non-blank lines of the answer. *)
Theorem search_names_are_clean (answer name : jsstring) :
  In name (namesOfResult answer) ->
  nonBlank name /\
  (isSubstring [COMMA] answer -> ~ In COMMA name /\ trimmed name) /\
  (~ isSubstring [COMMA] answer -> oneLine name).
Proof.
  unfold namesOfResult. change (lit ",") with [COMMA].
  destruct (includes answer [COMMA]) eqn:E.
  - intros H. apply filter_In in H as [H Hne].
    apply in_map_iff in H as (piece & <- & Hpiece).
    apply truthy_nonempty in Hne.
    split; [apply trimmed_nonBlank; [exact Hne|apply trim_trimmed]|].
    split; [|intros Hno; apply includes_spec in E; tauto].
    intros _. split; [|apply trim_trimmed].
    intros Hin. apply (split_piece_free COMMA answer piece Hpiece).
    destruct (trim_split piece) as (before & after & Hs & _).
    rewrite Hs, !in_app_iff. tauto.
  - intros H. apply filter_In in H as [H Hnb].
    split; [exact Hnb|]. split.
    + intros Hc. apply includes_spec in Hc. congruence.
    + intros _. eapply splitRuns_piece, H.
Qed.

(** X18 on an answer of two names around a comma. *)
Lemma search_names_are_clean_witness :
  nonBlank (lit "Bob Ray") /\
  (isSubstring [COMMA] (lit "Ann Lee, Bob Ray") ->
   ~ In COMMA (lit "Bob Ray") /\ trimmed (lit "Bob Ray")) /\
  (~ isSubstring [COMMA] (lit "Ann Lee, Bob Ray") -> oneLine (lit "Bob Ray")).
Proof.
  apply (search_names_are_clean (lit "Ann Lee, Bob Ray") (lit "Bob Ray")).
  vm_compute. right. left. reflexivity.
Defined.
